(** * StringIndexMarisa: a trie-backed scalar index over a string column

    Shallow embedding of [internal/core/src/index/StringIndexMarisa.cpp]
    (namespace [milvus::scalar]) and the properties of its build, codec and
    query paths.

    The index owns a marisa trie, the vector [str_ids_] (row offset to
    ordinal id) and the map [str_ids_to_offsets_] (ordinal id to the row
    offsets carrying it).  The trie library, the blob container and the
    bitset are collaborators that live outside this file's source; they are
    taken as interfaces with the contract the index relies on. *)

From Stdlib Require Import Strings.Byte.
From stdpp Require Import base option list sorting gmap strings numbers.

Open Scope N_scope.

(** ** Machine data *)

(** [size_t] is a 64-bit unsigned integer.  Values are carried as [N]; the
    ones that reach the byte codec are below [2^64]. *)
Abbreviation size_t := N.
Definition SIZE_WIDTH : nat := 8.
Definition size_t_bound : N := 2 ^ 64.

(** [std::string::c_str()] hands the callee a NUL-terminated buffer: the
    trie library sees the characters up to the first NUL only. *)
Fixpoint c_str (s : string) : string :=
  match s with
  | EmptyString => EmptyString
  | String c s' =>
      if Ascii.eqb c Ascii.zero then EmptyString else String c (c_str s')
  end.

(** Native (little-endian) layout of one integer over [w] bytes. *)
Definition low_byte (x : N) : byte :=
  default Byte.x00 (Byte.of_N (x mod 256)).

Fixpoint le_bytes (w : nat) (x : N) : list byte :=
  match w with
  | O => []
  | S w' => low_byte x :: le_bytes w' (x / 256)
  end.

Fixpoint le_value (bs : list byte) : N :=
  match bs with
  | [] => 0
  | b :: bs' => Byte.to_N b + 256 * le_value bs'
  end.

(** [memcpy] out of a [std::vector<size_t>]: the elements back to back. *)
Definition bytes_of_words (ws : list size_t) : list byte :=
  mbind (le_bytes SIZE_WIDTH) ws.

(** The first [k] whole integers of a byte buffer. *)
Fixpoint words_of_bytes (k : nat) (bs : list byte) : list size_t :=
  match k with
  | O => []
  | S k' => le_value (take SIZE_WIDTH bs) :: words_of_bytes k' (drop SIZE_WIDTH bs)
  end.

(** [memcpy(dst.data(), src, len)] into a vector.  The copy has a result
    only when the storage of the vector holds all [len] bytes: the first
    [len] bytes of the storage are then those of [src] and the rest stay.
    With more bytes than the vector has room for, [memcpy] writes past its
    end and there is no result.  [Load] sizes the vector to
    [len / sizeof(size_t)] elements, so this is what happens there for a
    length that is not a multiple of the width. *)
Definition memcpy_words (dst : list size_t) (src : list byte)
  : option (list size_t) :=
  if decide (length src ≤ SIZE_WIDTH * length dst)%nat
  then Some (words_of_bytes (length dst)
               (src ++ drop (length src) (bytes_of_words dst)))
  else None.

(** ** Bitmap collaborator *)

(** Modelled from the spec: the bitset type [TargetBitmap] is declared outside
    this source file.  It is a fixed-size bit vector of length [n] with
    set-all, [set(i)] and [reset(i)]; a position is required to be below the
    size, and a call outside that range does not return a bitmap. *)
Abbreviation TargetBitmap := (list bool).

Definition bitset_make (n : nat) : TargetBitmap := replicate n false.

Definition bitset_set_all (b : TargetBitmap) : TargetBitmap :=
  replicate (length b) true.

Definition bitset_put (v : bool) (pos : size_t) (b : TargetBitmap)
  : option TargetBitmap :=
  if decide (N.to_nat pos < length b)%nat
  then Some (<[N.to_nat pos := v]> b)
  else None.

Definition bitset_set := bitset_put true.
Definition bitset_reset := bitset_put false.

Definition bitset_flip (b : TargetBitmap) : TargetBitmap := negb <$> b.

(** ** Trie Engine collaborator *)

(** What [trie_.lookup(agent)] can do: raise the library's state error (no
    trie has been built or read), report a miss, or report a hit and store
    the key's ordinal id in the agent. *)
Inductive lookup_outcome : Type :=
| StateError
| Miss
| Hit (id : size_t).

(** The marisa library is not part of this source file.  The index uses a
    default-constructed trie, [build], [lookup], [predictive_search],
    [write] and [read], and reads [agent.key().id()] after a lookup.  The
    laws are the contract of the Trie Engine collaborator. *)
Record TrieEngine : Type := {
  Trie : Type;
  (** [marisa::Trie()] *)
  trie_new : Trie;
  (** [trie.build(keyset)] *)
  trie_build : list string → Trie;
  (** [trie.lookup(agent)] on a query string *)
  trie_lookup : Trie → string → lookup_outcome;
  (** the ids produced by calling [trie.predictive_search(agent)] until it
      returns false; [None] is the state error *)
  trie_predictive_search : Trie → string → option (list size_t);
  (** [trie.write(fd)]: the bytes written; [None] is the state error *)
  trie_write : Trie → option (list byte);
  (** [trie.read(fd)]: [None] is the format error, which leaves the target
      trie as it was *)
  trie_read : list byte → option Trie;
  (** [agent.key().id()] of an agent whose lookup did not hit *)
  fresh_key_id : size_t;

  trie_new_lookup : ∀ q, trie_lookup trie_new q = StateError;
  trie_new_predictive : ∀ p, trie_predictive_search trie_new p = None;
  trie_build_lookup : ∀ ks q, trie_lookup (trie_build ks) q ≠ StateError;
  trie_build_hit : ∀ ks q,
    N.of_nat (length ks) < size_t_bound →
    q ∈ ks ↔ ∃ id, trie_lookup (trie_build ks) q = Hit id;
  trie_build_inj : ∀ ks q q' id,
    trie_lookup (trie_build ks) q = Hit id →
    trie_lookup (trie_build ks) q' = Hit id → q = q';
  trie_build_predictive : ∀ ks p,
    ∃ ids, trie_predictive_search (trie_build ks) p = Some ids ∧
      ∀ id, id ∈ ids ↔
        ∃ q, String.prefix p q = true ∧ trie_lookup (trie_build ks) q = Hit id;
  trie_build_write : ∀ ks, is_Some (trie_write (trie_build ks));
  trie_read_write : ∀ t bs, trie_write t = Some bs → trie_read bs = Some t;
  trie_write_read : ∀ t bs, trie_read bs = Some t → is_Some (trie_write t);
  trie_read_lookup : ∀ t bs q,
    trie_read bs = Some t → trie_lookup t q ≠ StateError;
  trie_read_predictive : ∀ t bs p,
    trie_read bs = Some t → is_Some (trie_predictive_search t p);
  trie_id_bound : ∀ t q id, trie_lookup t q = Hit id → id < size_t_bound;
  fresh_key_id_bound : fresh_key_id < size_t_bound
}.

(** ** Blob container collaborator *)

(** A [BinarySet] holds named byte buffers. *)
Abbreviation BinarySet := (gmap string (list byte)).

(** [res_set.Append(name, data, size)] *)
Definition Append (name : string) (data : list byte) (set : BinarySet)
  : BinarySet := <[name := data]> set.

(** The segment names and the [Assemble]/[Disassemble] hook pair come from
    headers outside this source file. *)
Record Knowhere : Type := {
  Config : Type;
  MARISA_TRIE_INDEX : string;
  MARISA_STR_IDS : string;
  Disassemble : Config → BinarySet → BinarySet;
  Assemble : BinarySet → BinarySet;

  segment_names_differ : MARISA_TRIE_INDEX ≠ MARISA_STR_IDS;
  assemble_disassemble : ∀ cfg set, Assemble (Disassemble cfg set) = set
}.

(** ** The index instance *)

Inductive exn : Type :=
| runtime_error (what : string)
| marisa_state_error
| marisa_format_error
| segment_missing (name : string).

Section Index.
Context (E : TrieEngine) (K : Knowhere).

Record StringIndexMarisa : Type := mkIndex {
  trie_ : Trie E;
  str_ids_ : list size_t;
  str_ids_to_offsets_ : gmap N (list size_t);
  built_ : bool
}.

(** A freshly constructed instance. *)
Definition fresh : StringIndexMarisa :=
  mkIndex (trie_new E) [] ∅ false.

Definition with_trie (t : Trie E) (s : StringIndexMarisa) :=
  mkIndex t (str_ids_ s) (str_ids_to_offsets_ s) (built_ s).
Definition with_str_ids (ids : list size_t) (s : StringIndexMarisa) :=
  mkIndex (trie_ s) ids (str_ids_to_offsets_ s) (built_ s).
Definition with_offsets (m : gmap N (list size_t)) (s : StringIndexMarisa) :=
  mkIndex (trie_ s) (str_ids_ s) m (built_ s).
Definition with_built (b : bool) (s : StringIndexMarisa) :=
  mkIndex (trie_ s) (str_ids_ s) (str_ids_to_offsets_ s) b.

(** How a member function ends: it returns, an exception leaves it (the
    instance keeps the state it had at the throw), or a collaborator's
    precondition is violated and there is no result. *)
Inductive outcome (A : Type) : Type :=
| Done (a : A) (s : StringIndexMarisa)
| Thrown (e : exn) (s : StringIndexMarisa)
| Aborted.
Arguments Done {A} a s.
Arguments Thrown {A} e s.
Arguments Aborted {A}.

Definition M (A : Type) : Type := StringIndexMarisa → outcome A.

Definition ret {A} (a : A) : M A := λ s, Done a s.

Definition bind {A B} (m : M A) (k : A → M B) : M B := λ s,
  match m s with
  | Done a s' => k a s'
  | Thrown e s' => Thrown e s'
  | Aborted => Aborted
  end.

Definition gets {A} (f : StringIndexMarisa → A) : M A := λ s, Done (f s) s.
Definition modify (f : StringIndexMarisa → StringIndexMarisa) : M unit :=
  λ s, Done tt (f s).
Definition throw {A} (e : exn) : M A := λ s, Thrown e s.
Definition require {A} (o : option A) : M A := λ s,
  match o with Some a => Done a s | None => Aborted end.

Notation "x ⇐ m ; k" := (bind m (λ x, k))
  (at level 100, m at next level, right associativity,
   format "'[v' x  ⇐  m ;  '/' k ']'").
Notation "m ;; k" := (bind m (λ _, k))
  (at level 100, right associativity).

(** [for (x : l) { acc = body(acc, x); }] *)
Fixpoint foldM {A B} (body : B → A → M B) (acc : B) (l : list A) : M B :=
  match l with
  | [] => ret acc
  | x :: l' => acc' ⇐ body acc x; foldM body acc' l'
  end.

(** [for (size_t i = from; ...; i++) body(i, l[i - from])] *)
Fixpoint forM_indexed {A} (body : size_t → A → M unit) (from : size_t)
    (l : list A) : M unit :=
  match l with
  | [] => ret tt
  | x :: l' => body from x ;; forM_indexed body (N.succ from) l'
  end.

(** *** Private helpers *)

(** [StringIndexMarisa::lookup]: the boolean result of [trie_.lookup] is
    dropped and the agent's key id is returned in either case. *)
Definition lookup (str : string) : M size_t := λ s,
  match trie_lookup E (trie_ s) (c_str str) with
  | StateError => Thrown marisa_state_error s
  | Hit id => Done id s
  | Miss => Done (fresh_key_id E) s
  end.

(** [StringIndexMarisa::prefix_match] *)
Definition prefix_match (prefix : string) : M (list size_t) := λ s,
  match trie_predictive_search E (trie_ s) (c_str prefix) with
  | None => Thrown marisa_state_error s
  | Some ids => Done ids s
  end.

(** [StringIndexMarisa::fill_str_ids]; the [assert(str_id >= 0)] compares an
    unsigned value with zero.  The vector has just been resized to the
    number of values, so the store [str_ids_[i] = str_id] is within bounds. *)
Definition fill_str_ids (values : list string) : M unit :=
  modify (λ s, with_str_ids (resize (length values) 0 (str_ids_ s)) s) ;;
  forM_indexed (λ i str,
    str_id ⇐ lookup str;
    if 0 <=? str_id
    then modify (λ s, with_str_ids (<[N.to_nat i := str_id]> (str_ids_ s)) s)
    else λ _, Aborted) 0 values.

(** One iteration of the loop of [fill_offsets]. *)
Definition fill_offsets_step (m : gmap N (list size_t)) (offset str_id : size_t)
  : gmap N (list size_t) :=
  let m1 := if decide (m !! str_id = None) then <[str_id := []]> m else m in
  <[str_id := (m1 !!! str_id) ++ [offset]]> m1.

Fixpoint fill_offsets_loop (offset : size_t) (ids : list size_t)
    (m : gmap N (list size_t)) : gmap N (list size_t) :=
  match ids with
  | [] => m
  | str_id :: ids' =>
      fill_offsets_loop (N.succ offset) ids' (fill_offsets_step m offset str_id)
  end.

(** [StringIndexMarisa::fill_offsets] *)
Definition fill_offsets : M unit :=
  modify (λ s, with_offsets
    (fill_offsets_loop 0 (str_ids_ s) (str_ids_to_offsets_ s)) s).

(** [str_ids_to_offsets_[str_id]] read through [operator[]]: a key that is
    not in the map is inserted with an empty vector. *)
Definition offsets_at (str_id : size_t) : M (list size_t) := λ s,
  match str_ids_to_offsets_ s !! str_id with
  | Some offsets => Done offsets s
  | None => Done [] (with_offsets (<[str_id := []]> (str_ids_to_offsets_ s)) s)
  end.

(** *** Public operations *)

(** [StringIndexMarisa::Build] *)
Definition Build (values : list string) : M unit :=
  built ⇐ gets built_;
  if built then throw (runtime_error "index has been built") else
  let keyset := c_str <$> values in
  modify (with_trie (trie_build E keyset)) ;;
  fill_str_ids values ;;
  fill_offsets ;;
  modify (with_built true).

(** [GetByName] on a name that the set does not hold does not return. *)
Definition GetByName (set : BinarySet) (name : string) : M (list byte) :=
  match set !! name with
  | Some data => ret data
  | None => throw (segment_missing name)
  end.

(** [StringIndexMarisa::Serialize].  The trie is written to a staging file
    and read back into memory; the bytes are those the trie wrote. *)
Definition Serialize (config : Config K) : M BinarySet :=
  t ⇐ gets trie_;
  match trie_write E t with
  | None => throw marisa_state_error
  | Some index_data =>
      str_ids ⇐ gets (λ s, bytes_of_words (str_ids_ s));
      let res_set := Append (MARISA_TRIE_INDEX K) index_data ∅ in
      let res_set := Append (MARISA_STR_IDS K) str_ids res_set in
      ret (Disassemble K config res_set)
  end.

(** [StringIndexMarisa::Load] *)
Definition Load (set : BinarySet) : M unit :=
  let set := Assemble K set in
  index ⇐ GetByName set (MARISA_TRIE_INDEX K);
  match trie_read E index with
  | None => throw marisa_format_error
  | Some t =>
      modify (with_trie t) ;;
      str_ids ⇐ GetByName set (MARISA_STR_IDS K);
      let str_ids_len := length str_ids in
      modify (λ s, with_str_ids
        (resize (str_ids_len / SIZE_WIDTH)%nat 0 (str_ids_ s)) s) ;;
      resized ⇐ gets str_ids_;
      copied ⇐ require (memcpy_words resized str_ids);
      modify (with_str_ids copied) ;;
      fill_offsets
  end.

(** [StringIndexMarisa::In] *)
Definition In (values : list string) : M TargetBitmap :=
  bitset ⇐ gets (λ s, bitset_make (length (str_ids_ s)));
  foldM (λ bitset str,
    str_id ⇐ lookup str;
    if 0 <=? str_id then
      offsets ⇐ offsets_at str_id;
      foldM (λ bitset offset, require (bitset_set offset bitset)) bitset offsets
    else ret bitset) bitset values.

(** [StringIndexMarisa::NotIn] *)
Definition NotIn (values : list string) : M TargetBitmap :=
  bitset ⇐ gets (λ s, bitset_make (length (str_ids_ s)));
  let bitset := bitset_set_all bitset in
  foldM (λ bitset str,
    str_id ⇐ lookup str;
    if 0 <=? str_id then
      offsets ⇐ offsets_at str_id;
      foldM (λ bitset offset, require (bitset_reset offset bitset)) bitset offsets
    else ret bitset) bitset values.

(** [StringIndexMarisa::Range], both overloads.  The operator type is
    declared outside this source file; [Range] does not look at it. *)
Definition Range {OperatorType : Type} (value : string) (op : OperatorType)
  : M TargetBitmap :=
  throw (runtime_error "todo: unsupported now").

Definition Range_bounds (lower_bound_value : string) (lb_inclusive : bool)
    (upper_bound_value : string) (ub_inclusive : bool) : M TargetBitmap :=
  throw (runtime_error "todo: unsupported now").

(** [StringIndexMarisa::PrefixMatch] *)
Definition PrefixMatch (prefix : string) : M TargetBitmap :=
  bitset ⇐ gets (λ s, bitset_make (length (str_ids_ s)));
  matched ⇐ prefix_match prefix;
  foldM (λ bitset str_id,
    offsets ⇐ offsets_at str_id;
    foldM (λ bitset offset, require (bitset_set offset bitset)) bitset offsets)
    bitset matched.

(** What the caller of a member function sees of its outcome. *)
Inductive observation (A : Type) : Type :=
| Returned (a : A)
| Raised (e : exn)
| Crashed.
Arguments Returned {A} a.
Arguments Raised {A} e.
Arguments Crashed {A}.

Definition observe {A} (o : outcome A) : observation A :=
  match o with
  | Done a _ => Returned a
  | Thrown e _ => Raised e
  | Aborted => Crashed
  end.

End Index.

Arguments Done {E A} a s.
Arguments Thrown {E A} e s.
Arguments Aborted {E A}.
Arguments mkIndex {E} _ _ _ _.
Arguments trie_ {E} _.
Arguments str_ids_ {E} _.
Arguments str_ids_to_offsets_ {E} _.
Arguments built_ {E} _.
Arguments Returned {A} a.
Arguments Raised {A} e.
Arguments Crashed {A}.
Arguments observe {E A} o.
Arguments fresh E : clear implicits.
Arguments lookup {E} str s.
Arguments prefix_match {E} prefix s.
Arguments fill_str_ids {E} values s.
Arguments fill_offsets {E} s.
Arguments offsets_at {E} str_id s.
Arguments Build {E} values s.
Arguments Serialize {E} K config s.
Arguments Load {E} K set s.
Arguments In {E} values s.
Arguments NotIn {E} values s.
Arguments PrefixMatch {E} prefix s.
Arguments Range {E OperatorType} value op s.
Arguments Range_bounds {E} lower_bound_value lb_inclusive upper_bound_value
  ub_inclusive s.
Arguments with_trie {E} t s.
Arguments with_str_ids {E} ids s.
Arguments with_offsets {E} m s.
Arguments with_built {E} b s.

(** ** A reference Trie Engine *)

(** Modelled from the spec: the Trie Engine is a library outside this
    repository's source.  This inhabitant of its contract keeps the distinct
    keys of the keyset in a list and uses a key's position as its ordinal
    id, so ids are dense and zero-based.  The id an agent carries before any
    hit is 0, as the library's key constructor sets it. *)
Module ListTrie.

Definition trie : Type := option (list string).

Fixpoint index_of (q : string) (i : N) (ks : list string) : option N :=
  match ks with
  | [] => None
  | k :: ks' => if decide (k = q) then Some i else index_of q (N.succ i) ks'
  end.

Definition build (keyset : list string) : trie := Some (remove_dups keyset).

Definition lookup (t : trie) (q : string) : lookup_outcome :=
  match t with
  | None => StateError
  | Some ks =>
      match index_of q 0 ks with
      | Some i => if decide (i < size_t_bound) then Hit i else Miss
      | None => Miss
      end
  end.

Fixpoint prefix_ids (p : string) (i : N) (ks : list string) : list N :=
  match ks with
  | [] => []
  | k :: ks' =>
      (if String.prefix p k && bool_decide (i < size_t_bound) then [i] else [])
        ++ prefix_ids p (N.succ i) ks'
  end.

Definition predictive_search (t : trie) (p : string) : option (list N) :=
  match t with
  | None => None
  | Some ks => Some (prefix_ids p 0 ks)
  end.

(** Byte form: every character of a key is preceded by 01, a key ends
    with 00. *)
Definition key_bytes (k : string) : list byte :=
  mbind (λ b, [Byte.x01; b]) (String.list_byte_of_string k) ++ [Byte.x00].

Definition write (t : trie) : option (list byte) :=
  match t with
  | None => None
  | Some ks => Some (mbind key_bytes ks)
  end.

Fixpoint parse (done : list string) (cur : list byte) (bs : list byte)
  : option (list string) :=
  match bs with
  | [] => match cur with [] => Some (reverse done) | _ => None end
  | Byte.x00 :: bs' =>
      parse (String.string_of_list_byte (reverse cur) :: done) [] bs'
  | Byte.x01 :: b :: bs' => parse done (b :: cur) bs'
  | _ => None
  end.

Definition read (bs : list byte) : option trie := Some <$> parse [] [] bs.

End ListTrie.


(** ** Vocabulary of the properties *)

(** The offsets, counted from [from], at which [ids] holds [id]. *)
Fixpoint positions (from : N) (ids : list size_t) (id : size_t) : list size_t :=
  match ids with
  | [] => []
  | x :: ids' =>
      (if decide (x = id) then [from] else []) ++ positions (N.succ from) ids' id
  end.


Section Vocabulary.
Context {E : TrieEngine} (K : Knowhere).
Implicit Types (s : StringIndexMarisa E) (values : list string).

(** An outcome with its value mapped. *)
Definition outcome_map {A B} (f : A → B) (o : outcome E A) : outcome E B :=
  match o with
  | Done a s => Done (f a) s
  | Thrown e s => Thrown e s
  | Aborted => Aborted
  end.

(** An outcome with its state mapped. *)
Definition restate {A} (f : StringIndexMarisa E → StringIndexMarisa E)
    (o : outcome E A) : outcome E A :=
  match o with
  | Done a s => Done a (f s)
  | Thrown e s => Thrown e (f s)
  | Aborted => Aborted
  end.

Definition flag_blind {A} (m : M E A) : Prop :=
  ∀ flag s, m (with_built flag s) = restate (with_built flag) (m s).

(** The id [lookup] hands back for a value once the trie answers. *)
Definition lookup_id (t : Trie E) (str : string) : size_t :=
  match trie_lookup E t (c_str str) with
  | Hit id => id
  | _ => fresh_key_id E
  end.

(** The trie answers lookups (it has been built or read). *)
Definition trie_ready (t : Trie E) : Prop :=
  ∀ q, trie_lookup E t q ≠ StateError.

(** The state [Build] leaves when it is allowed to run. *)
Definition built_from values (m : gmap N (list size_t)) : StringIndexMarisa E :=
  let t := trie_build E (c_str <$> values) in
  let ids := lookup_id t <$> values in
  mkIndex t ids (fill_offsets_loop 0 ids m) true.

(** The state [Load] leaves when both segments are there, the trie
    decodes and the offsets segment is a whole number of integers. *)
Definition loaded_from (t : Trie E) (str_ids : list byte) s
  : StringIndexMarisa E :=
  let ids := words_of_bytes (length str_ids / SIZE_WIDTH)%nat str_ids in
  mkIndex t ids (fill_offsets_loop 0 ids (str_ids_to_offsets_ s)) (built_ s).

(** The offsets [str_ids_to_offsets_[id]] yields, present or not. *)
Definition offsets_of s (id : size_t) : list size_t :=
  default [] (str_ids_to_offsets_ s !! id).

(** Every recorded offset addresses a row. *)
Definition offsets_in_range s : Prop :=
  ∀ id o, o ∈ offsets_of s id → (N.to_nat o < length (str_ids_ s))%nat.

(** Two states that no query tells apart: same trie, same rows, same
    offsets under every id. *)
Definition same_rows s s' : Prop :=
  trie_ s' = trie_ s ∧ str_ids_ s' = str_ids_ s ∧ built_ s' = built_ s ∧
  ∀ id, offsets_of s' id = offsets_of s id.

(** [str_ids_to_offsets_] is the inverse of [str_ids_]: what one pass of
    [fill_offsets] over an empty map leaves. *)
Definition consistent s : Prop :=
  str_ids_to_offsets_ s = fill_offsets_loop 0 (str_ids_ s) ∅.

(** The offset-partition invariant of the data model. *)
Definition offset_partition s : Prop :=
  (∀ (o : nat) id, str_ids_ s !! o = Some id →
     ∃ offsets, str_ids_to_offsets_ s !! id = Some offsets ∧
       count_occ N.eq_dec offsets (N.of_nat o) = 1%nat) ∧
  (∀ id offsets o, str_ids_to_offsets_ s !! id = Some offsets →
     o ∈ offsets → str_ids_ s !! N.to_nat o = Some id) ∧
  (∀ id offsets, str_ids_to_offsets_ s !! id = Some offsets →
     StronglySorted N.lt offsets).

(** An instance as the lifecycle produces it: constructed empty, then one
    successful [Build] or one successful [Load]. *)
Inductive built_instance : StringIndexMarisa E → Prop :=
| built_by_Build values X :
    Build values (fresh E) = Done () X → built_instance X
| built_by_Load set X :
    Load K set (fresh E) = Done () X → built_instance X.

End Vocabulary.

(** The three query operations under one name. *)
Inductive query : Type :=
| QIn (values : list string)
| QNotIn (values : list string)
| QPrefixMatch (prefix : string).

Section QueryVocabulary.
Context {E : TrieEngine}.
Implicit Types (s : StringIndexMarisa E).

Definition run_query (q : query) : M E TargetBitmap :=
  match q with
  | QIn values => In values
  | QNotIn values => NotIn values
  | QPrefixMatch prefix => PrefixMatch prefix
  end.

(** The state an operation leaves behind is one that [same_rows] relates
    to the state it started from. *)
Definition keeps_rows {A} s (o : outcome E A) : Prop :=
  match o with
  | Done _ s' | Thrown _ s' => same_rows s s'
  | Aborted => True
  end.

(** Two outcomes of the same kind, with the same value or exception, in
    states that [same_rows] relates. *)
Definition outcome_agree {A} (o1 o2 : outcome E A) : Prop :=
  match o1, o2 with
  | Done a1 s1, Done a2 s2 => a1 = a2 ∧ same_rows s1 s2
  | Thrown e1 s1, Thrown e2 s2 => e1 = e2 ∧ same_rows s1 s2
  | Aborted, Aborted => True
  | _, _ => False
  end.

Definition keeper {A} (m : M E A) : Prop := ∀ s, keeps_rows s (m s).

Definition respects_rows {A} (m : M E A) : Prop :=
  ∀ s1 s2, same_rows s1 s2 → outcome_agree (m s1) (m s2).

End QueryVocabulary.
(** ** Facts about the reference Trie Engine *)

Lemma index_of_Some q i ks j :
  ListTrie.index_of q i ks = Some j →
  ∃ n : nat, j = i + N.of_nat n ∧ ks !! n = Some q.
Proof.
  revert i. induction ks as [|k ks IH]; intros i; simpl; [done|].
  case_decide as Hk.
  - intros [= <-]. exists 0%nat. split; [lia | by subst].
  - intros (n & -> & Hn)%IH. exists (S n). split; [lia | done].
Qed.

Lemma index_of_elem q i ks :
  q ∈ ks → is_Some (ListTrie.index_of q i ks).
Proof.
  revert i. induction ks as [|k ks IH]; intros i; [by intros ?%elem_of_nil|].
  simpl. case_decide; [eauto|].
  intros [?|?]%elem_of_cons; [congruence | by apply IH].
Qed.

Lemma index_of_NoDup q i ks (n : nat) :
  NoDup ks → ks !! n = Some q →
  ListTrie.index_of q i ks = Some (i + N.of_nat n).
Proof.
  revert i n. induction ks as [|k ks IH]; intros i n Hnd; [done|].
  apply list.NoDup_cons in Hnd as [Hk Hnd]. simpl. destruct n as [|n]; simpl.
  - intros [= ->]. rewrite decide_True by done. f_equal. lia.
  - intros Hn. rewrite decide_False.
    + rewrite (IH _ n) by done. f_equal. lia.
    + intros ->. apply Hk. by eapply list_elem_of_lookup_2.
Qed.

Lemma remove_dups_length_le (ks : list string) :
  (length (remove_dups ks) ≤ length ks)%nat.
Proof.
  induction ks as [|k ks IH]; simpl; [done|].
  case_decide; simpl; lia.
Qed.

Lemma prefix_ids_elem p i ks id :
  id ∈ ListTrie.prefix_ids p i ks ↔
  ∃ (n : nat) k, id = i + N.of_nat n ∧ ks !! n = Some k ∧
    String.prefix p k = true ∧ id < size_t_bound.
Proof.
  revert i. induction ks as [|k ks IH]; intros i; simpl.
  - split; [by intros ?%elem_of_nil | by intros (? & ? & ? & ? & _)].
  - rewrite elem_of_app, IH. split.
    + intros [Hhd | (n & k' & -> & Hn & Hp & Hb)].
      * destruct (String.prefix p k) eqn:Hp; simpl in Hhd;
          [|by apply elem_of_nil in Hhd].
        case_bool_decide; [|by apply elem_of_nil in Hhd].
        apply list_elem_of_singleton in Hhd as ->.
        exists 0%nat, k. split_and!; [lia | done..].
      * exists (S n), k'. split_and!; [lia | done..].
    + intros ([|n] & k' & -> & Hn & Hp & Hb); simpl in Hn.
      * injection Hn as ->. left. rewrite Hp. simpl.
        rewrite bool_decide_eq_true_2; [apply list_elem_of_singleton; lia|].
        by replace i with (i + N.of_nat 0) by lia.
      * right. exists n, k'. split_and!; [lia | done..].
Qed.

Lemma parse_key_bytes done cur k rest :
  ListTrie.parse done cur (ListTrie.key_bytes k ++ rest) =
  ListTrie.parse
    (String.string_of_list_byte
       (reverse cur ++ String.list_byte_of_string k) :: done) [] rest.
Proof.
  unfold ListTrie.key_bytes.
  generalize (String.list_byte_of_string k) as bs. intros bs.
  revert cur. induction bs as [|b bs IH]; intros cur; simpl.
  - by rewrite app_nil_r.
  - rewrite IH, reverse_cons, <-app_assoc. done.
Qed.

Lemma parse_keys done ks :
  ListTrie.parse done [] (mbind ListTrie.key_bytes ks) =
  Some (reverse done ++ ks).
Proof.
  revert done. induction ks as [|k ks IH]; intros done; simpl.
  - by rewrite app_nil_r.
  - rewrite parse_key_bytes, IH. simpl.
    rewrite String.string_of_list_byte_of_string, reverse_cons, <-app_assoc.
    done.
Qed.

Lemma list_trie_build_lookup ks q :
  ListTrie.lookup (ListTrie.build ks) q ≠ StateError.
Proof.
  unfold ListTrie.build, ListTrie.lookup.
  destruct (ListTrie.index_of _ _ _); [case_decide|]; done.
Qed.

Lemma list_trie_build_hit ks q :
  N.of_nat (length ks) < size_t_bound →
  q ∈ ks ↔ ∃ id, ListTrie.lookup (ListTrie.build ks) q = Hit id.
Proof.
  intros Hlen. unfold ListTrie.build, ListTrie.lookup. split.
  - intros Hq. apply elem_of_remove_dups in Hq.
    destruct (index_of_elem q 0 _ Hq) as [j Hj]. rewrite Hj.
    apply index_of_Some in Hj as (n & -> & Hn).
    apply lookup_lt_Some in Hn. pose proof (remove_dups_length_le ks).
    rewrite decide_True by lia. eauto.
  - intros [id Hid].
    destruct (ListTrie.index_of _ _ _) as [j|] eqn:Hj; [|done].
    apply index_of_Some in Hj as (n & _ & Hn).
    apply elem_of_remove_dups. by eapply list_elem_of_lookup_2.
Qed.

Lemma list_trie_build_inj ks q q' id :
  ListTrie.lookup (ListTrie.build ks) q = Hit id →
  ListTrie.lookup (ListTrie.build ks) q' = Hit id → q = q'.
Proof.
  unfold ListTrie.build, ListTrie.lookup.
  destruct (ListTrie.index_of q _ _) as [j|] eqn:Hj; [|done].
  destruct (ListTrie.index_of q' _ _) as [j'|] eqn:Hj'; [|done].
  repeat case_decide; try done. intros [= <-] [= <-].
  apply index_of_Some in Hj as (n & -> & Hn).
  apply index_of_Some in Hj' as (n' & Heq & Hn').
  assert (n = n') as <- by lia. congruence.
Qed.

Lemma list_trie_build_predictive ks p :
  ∃ ids, ListTrie.predictive_search (ListTrie.build ks) p = Some ids ∧
    ∀ id, id ∈ ids ↔
      ∃ q, String.prefix p q = true ∧
        ListTrie.lookup (ListTrie.build ks) q = Hit id.
Proof.
  eexists. split; [done|]. intros id.
  rewrite prefix_ids_elem. unfold ListTrie.build, ListTrie.lookup. split.
  - intros (n & k & -> & Hn & Hp & Hb). exists k. split; [done|].
    rewrite (index_of_NoDup _ _ _ n) by (done || apply NoDup_remove_dups).
    by rewrite decide_True.
  - intros (q & Hp & Hq).
    destruct (ListTrie.index_of q _ _) as [j|] eqn:Hj; [|done].
    case_decide; [|done]. injection Hq as ->.
    apply index_of_Some in Hj as (n & -> & Hn). eauto 10.
Qed.

Lemma list_trie_build_write ks : is_Some (ListTrie.write (ListTrie.build ks)).
Proof. by eexists. Qed.

Lemma list_trie_read_write t bs :
  ListTrie.write t = Some bs → ListTrie.read bs = Some t.
Proof.
  destruct t as [ks|]; [|done]. intros [= <-]. unfold ListTrie.read.
  by rewrite parse_keys.
Qed.

Lemma list_trie_write_read t bs :
  ListTrie.read bs = Some t → is_Some (ListTrie.write t).
Proof.
  unfold ListTrie.read.
  destruct (ListTrie.parse _ _ _); [|done]. intros [= <-]. by eexists.
Qed.

Lemma list_trie_read_lookup t bs q :
  ListTrie.read bs = Some t → ListTrie.lookup t q ≠ StateError.
Proof.
  unfold ListTrie.read, ListTrie.lookup.
  destruct (ListTrie.parse _ _ _); [|done]. intros [= <-].
  destruct (ListTrie.index_of _ _ _); [case_decide|]; done.
Qed.

Lemma list_trie_read_predictive t bs p :
  ListTrie.read bs = Some t → is_Some (ListTrie.predictive_search t p).
Proof.
  unfold ListTrie.read.
  destruct (ListTrie.parse _ _ _); [|done]. intros [= <-]. by eexists.
Qed.

Lemma list_trie_id_bound t q id :
  ListTrie.lookup t q = Hit id → id < size_t_bound.
Proof.
  destruct t as [ks|]; [|done]. unfold ListTrie.lookup.
  destruct (ListTrie.index_of _ _ _); [|done]. case_decide; [|done].
  by intros [= <-].
Qed.

Lemma zero_below_size_t_bound : 0 < size_t_bound.
Proof. done. Qed.

Definition list_trie : TrieEngine := {|
  Trie := ListTrie.trie;
  trie_new := None;
  trie_build := ListTrie.build;
  trie_lookup := ListTrie.lookup;
  trie_predictive_search := ListTrie.predictive_search;
  trie_write := ListTrie.write;
  trie_read := ListTrie.read;
  fresh_key_id := 0;
  trie_new_lookup := λ _, eq_refl;
  trie_new_predictive := λ _, eq_refl;
  trie_build_lookup := list_trie_build_lookup;
  trie_build_hit := list_trie_build_hit;
  trie_build_inj := list_trie_build_inj;
  trie_build_predictive := list_trie_build_predictive;
  trie_build_write := list_trie_build_write;
  trie_read_write := list_trie_read_write;
  trie_write_read := list_trie_write_read;
  trie_read_lookup := list_trie_read_lookup;
  trie_read_predictive := list_trie_read_predictive;
  trie_id_bound := list_trie_id_bound;
  fresh_key_id_bound := zero_below_size_t_bound
|}.

Lemma plain_segment_names_differ :
  "marisa_trie_index" ≠ "marisa_str_ids".
Proof. done. Qed.

(** Modelled from the spec: the [Assemble]/[Disassemble] hook pair is a
    pass-through, and the two segments carry fixed, distinct names. *)
Definition plain_knowhere : Knowhere := {|
  Config := unit;
  MARISA_TRIE_INDEX := "marisa_trie_index";
  MARISA_STR_IDS := "marisa_str_ids";
  Disassemble := λ _ set, set;
  Assemble := λ set, set;
  segment_names_differ := plain_segment_names_differ;
  assemble_disassemble := λ _ _, eq_refl
|}.

(** ** Sample instances on the reference collaborators *)

Definition sample_values : list string := ["a"; "b"; "a"; "c"].

(** [Build] over [sample_values] on a fresh instance. *)
Definition sample_built : StringIndexMarisa list_trie :=
  built_from sample_values ∅.

(** What [Serialize] makes of [sample_built]. *)
Definition sample_blob : BinarySet :=
  match Serialize plain_knowhere () sample_built with
  | Done blob _ => blob
  | _ => ∅
  end.

(** [Load] of [sample_blob] into a fresh instance. *)
Definition sample_loaded : StringIndexMarisa list_trie :=
  with_built false sample_built.

(** A blob set without the offsets segment. *)
Definition trie_only_blob : BinarySet :=
  Append "marisa_trie_index" (ListTrie.key_bytes "a") ∅.

(** ** The integer codec *)

Lemma low_byte_to_N x : Byte.to_N (low_byte x) = x mod 256.
Proof.
  unfold low_byte.
  destruct (Byte.of_N (x mod 256)) as [b|] eqn:Hb; simpl.
  - by apply Byte.to_of_N.
  - apply Byte.of_N_None_iff in Hb.
    pose proof (N.mod_upper_bound x 256). lia.
Qed.

Lemma le_bytes_length w x : length (le_bytes w x) = w.
Proof. revert x. induction w; intros x; simpl; [done | by rewrite IHw]. Qed.

Lemma le_value_le_bytes w x : le_value (le_bytes w x) = x mod 256 ^ N.of_nat w.
Proof.
  revert x. induction w as [|w IH]; intros x.
  - simpl. by rewrite N.mod_1_r.
  - cbn [le_bytes le_value]. rewrite low_byte_to_N, IH.
    rewrite Nat2N.inj_succ, N.pow_succ_r'.
    rewrite (N.Div0.mod_mul_r x 256 (256 ^ N.of_nat w)). lia.
Qed.

Lemma le_value_bound bs : le_value bs < 256 ^ N.of_nat (length bs).
Proof.
  induction bs as [|b bs IH].
  - simpl. lia.
  - cbn [le_value length]. rewrite Nat2N.inj_succ, N.pow_succ_r'.
    pose proof (Byte.to_N_bounded b). lia.
Qed.

Lemma bytes_of_words_length ws :
  length (bytes_of_words ws) = (SIZE_WIDTH * length ws)%nat.
Proof.
  unfold bytes_of_words. induction ws as [|w ws IH]; [done|].
  cbn [mbind list_bind]. rewrite length_app, le_bytes_length.
  unfold bytes_of_words in IH. rewrite IH. unfold SIZE_WIDTH. cbn [length]. lia.
Qed.

Lemma words_of_bytes_of_words ws rest :
  Forall (λ w, w < size_t_bound) ws →
  words_of_bytes (length ws) (bytes_of_words ws ++ rest) = ws.
Proof.
  induction 1 as [|w ws Hw _ IH]; [done|].
  unfold bytes_of_words. cbn [mbind list_bind length words_of_bytes].
  rewrite <-app_assoc.
  rewrite take_app_length' by (by rewrite le_bytes_length).
  rewrite drop_app_length' by (by rewrite le_bytes_length).
  rewrite le_value_le_bytes. f_equal; [|apply IH].
  apply N.mod_small. exact Hw.
Qed.

Lemma words_of_bytes_length k bs : length (words_of_bytes k bs) = k.
Proof. revert bs. induction k; intros bs; simpl; [done | by rewrite IHk]. Qed.

Lemma words_of_bytes_bound k bs :
  Forall (λ w, w < size_t_bound) (words_of_bytes k bs).
Proof.
  revert bs. induction k as [|k IH]; intros bs; simpl; constructor; [|apply IH].
  pose proof (le_value_bound (take SIZE_WIDTH bs)) as Hb.
  eapply N.lt_le_trans; [exact Hb|].
  unfold size_t_bound. change (2 ^ 64) with (256 ^ N.of_nat SIZE_WIDTH).
  apply N.pow_le_mono_r; [done|]. rewrite length_take. lia.
Qed.

(** What [resize] followed by [memcpy] leaves in [str_ids_] during [Load],
    for a segment that is a whole number of integers. *)
Lemma memcpy_after_resize (old : list size_t) bs :
  (length bs mod SIZE_WIDTH = 0)%nat →
  memcpy_words (resize (length bs / SIZE_WIDTH)%nat 0 old) bs =
  Some (words_of_bytes (length bs / SIZE_WIDTH)%nat bs).
Proof.
  intros Hal. unfold memcpy_words. rewrite length_resize.
  assert (SIZE_WIDTH * (length bs / SIZE_WIDTH) = length bs)%nat as Hlen.
  { pose proof (Nat.div_mod_eq (length bs) SIZE_WIDTH). lia. }
  rewrite decide_True by lia. f_equal. f_equal.
  rewrite drop_ge by (rewrite bytes_of_words_length, length_resize; lia).
  apply app_nil_r.
Qed.

(** A segment with a trailing partial integer does not fit the vector that
    [resize] has sized for it. *)
Lemma memcpy_after_resize_misaligned (old : list size_t) bs :
  (length bs mod SIZE_WIDTH ≠ 0)%nat →
  memcpy_words (resize (length bs / SIZE_WIDTH)%nat 0 old) bs = None.
Proof.
  intros Hal. unfold memcpy_words. rewrite length_resize.
  pose proof (Nat.div_mod_eq (length bs) SIZE_WIDTH).
  by rewrite decide_False by lia.
Qed.

(** ** The inverse map built by [fill_offsets] *)

Lemma fill_offsets_step_lookup (m : gmap N (list size_t)) o x id :
  fill_offsets_step m o x !! id =
  if decide (x = id) then Some (default [] (m !! x) ++ [o]) else m !! id.
Proof.
  unfold fill_offsets_step. destruct (decide (x = id)) as [<-|Hx].
  - rewrite lookup_insert_eq. f_equal. f_equal.
    case_decide as Hm.
    + rewrite lookup_total_insert_eq, Hm. done.
    + rewrite lookup_total_alt. done.
  - rewrite lookup_insert_ne by done.
    case_decide; [by rewrite lookup_insert_ne | done].
Qed.

Lemma fill_offsets_loop_lookup from ids (m : gmap N (list size_t)) id :
  fill_offsets_loop from ids m !! id =
  match positions from ids id with
  | [] => m !! id
  | ps => Some (default [] (m !! id) ++ ps)
  end.
Proof.
  revert from m. induction ids as [|x ids IH]; intros from m; [done|].
  cbn [fill_offsets_loop positions]. rewrite IH, fill_offsets_step_lookup.
  case_decide as Hx; simpl.
  - subst x. destruct (positions _ ids id); simpl; [done|].
    by rewrite <-app_assoc.
  - done.
Qed.

Lemma elem_of_positions from ids id o :
  o ∈ positions from ids id ↔
  ∃ n : nat, o = from + N.of_nat n ∧ ids !! n = Some id.
Proof.
  revert from. induction ids as [|x ids IH]; intros from; simpl.
  - split; [by intros ?%elem_of_nil | by intros (? & _ & ?)].
  - rewrite elem_of_app, IH. split.
    + intros [Hhd | (n & -> & Hn)].
      * case_decide; [|by apply elem_of_nil in Hhd].
        apply list_elem_of_singleton in Hhd as ->. subst x.
        exists 0%nat. split; [lia | done].
      * exists (S n). split; [lia | done].
    + intros ([|n] & -> & Hn); simpl in Hn.
      * injection Hn as ->. left. rewrite decide_True by done.
        apply list_elem_of_singleton. lia.
      * right. exists n. split; [lia | done].
Qed.

Lemma positions_sorted from ids id :
  StronglySorted N.lt (positions from ids id).
Proof.
  revert from. induction ids as [|x ids IH]; intros from; simpl.
  - constructor.
  - assert (Forall (N.lt from) (positions (N.succ from) ids id)) as Hall.
    { apply list.Forall_forall. intros o (n & -> & _)%elem_of_positions. lia. }
    case_decide; simpl; [constructor|]; auto.
Qed.

Lemma StronglySorted_lt_NoDup (l : list N) : StronglySorted N.lt l → NoDup l.
Proof.
  induction 1 as [|x l _ IH Hall]; constructor; [|done].
  intros Hx. rewrite list.Forall_forall in Hall. specialize (Hall _ Hx). lia.
Qed.

Lemma NoDup_count_one (l : list N) o :
  NoDup l → o ∈ l → count_occ N.eq_dec l o = 1%nat.
Proof.
  induction 1 as [|x l Hx _ IH]; [by intros ?%elem_of_nil|].
  intros Ho. simpl. destruct (N.eq_dec x o) as [->|Hne].
  - f_equal. apply count_occ_not_In. by rewrite <-list_elem_of_In.
  - apply IH. apply elem_of_cons in Ho as [?|?]; [congruence | done].
Qed.

(** ** Running the index *)

Lemma leb_0_l n : (0 <=? n) = true.
Proof. by destruct n. Qed.

Section Queries.
Context {E : TrieEngine}.
Implicit Types (s : StringIndexMarisa E) (b : TargetBitmap).
Implicit Types (offs : list size_t) (V : list string).

Lemma bind_run {A B} (m : M E A) (k : A → M E B) s :
  bind E m k s =
  match m s with
  | Done a s' => k a s'
  | Thrown e s' => Thrown e s'
  | Aborted => Aborted
  end.
Proof. reflexivity. Qed.

Lemma foldM_cons {A B} (body : B → A → M E B) acc x l s :
  foldM E body acc (x :: l) s =
  match body acc x s with
  | Done acc' s' => foldM E body acc' l s'
  | Thrown e s' => Thrown e s'
  | Aborted => Aborted
  end.
Proof. reflexivity. Qed.

(** *** [NotIn] against [In] *)

Lemma bitset_set_all_make n :
  bitset_set_all (bitset_make n) = bitset_flip (bitset_make n).
Proof.
  unfold bitset_set_all, bitset_make, bitset_flip.
  by rewrite length_replicate, fmap_replicate.
Qed.

Lemma bitset_put_flip v pos b :
  bitset_put (negb v) pos (bitset_flip b) = bitset_flip <$> bitset_put v pos b.
Proof.
  unfold bitset_put, bitset_flip. rewrite length_fmap.
  case_decide; [|done]. simpl. by rewrite list_fmap_insert.
Qed.

Lemma clear_offsets_flip offs b s :
  foldM E (λ bitset offset, require E (bitset_reset offset bitset))
    (bitset_flip b) offs s =
  outcome_map bitset_flip
    (foldM E (λ bitset offset, require E (bitset_set offset bitset)) b offs s).
Proof.
  revert b. induction offs as [|o offs IH]; intros b; [done|].
  rewrite !foldM_cons. unfold require, bitset_reset, bitset_set.
  rewrite (bitset_put_flip true).
  destruct (bitset_put true o b) as [b'|]; simpl; [apply IH | done].
Qed.

Lemma NotIn_loop_flip V b s :
  foldM E (λ bitset str,
      bind E (lookup str) (λ str_id,
        if 0 <=? str_id then
          bind E (offsets_at str_id) (λ offsets,
            foldM E (λ bitset offset, require E (bitset_reset offset bitset))
              bitset offsets)
        else ret E bitset)) (bitset_flip b) V s =
  outcome_map bitset_flip
    (foldM E (λ bitset str,
      bind E (lookup str) (λ str_id,
        if 0 <=? str_id then
          bind E (offsets_at str_id) (λ offsets,
            foldM E (λ bitset offset, require E (bitset_set offset bitset))
              bitset offsets)
        else ret E bitset)) b V s).
Proof.
  revert b s. induction V as [|v V IH]; intros b s; [done|].
  rewrite !foldM_cons, !bind_run.
  destruct (lookup v s) as [id s1|e s1|]; [|done..].
  rewrite leb_0_l, !bind_run.
  destruct (offsets_at id s1) as [offs s2|e s2|]; [|done..].
  rewrite clear_offsets_flip.
  destruct (foldM E _ b offs s2) as [b' s3|e s3|]; simpl; [apply IH | done..].
Qed.

Lemma NotIn_outcome s V : NotIn V s = outcome_map bitset_flip (In V s).
Proof.
  unfold NotIn, In. rewrite !bind_run. unfold gets.
  rewrite bitset_set_all_make. apply NotIn_loop_flip.
Qed.

End Queries.

(** ** Build, Serialize and Load *)

Section Lifecycle.
Context {E : TrieEngine} (K : Knowhere).
Implicit Types (s : StringIndexMarisa E) (values : list string).

Lemma lookup_run s str :
  trie_ready (trie_ s) → lookup str s = Done (lookup_id (trie_ s) str) s.
Proof.
  intros Hready. unfold lookup, lookup_id. specialize (Hready (c_str str)).
  by destruct (trie_lookup E (trie_ s) (c_str str)).
Qed.

Lemma lookup_id_bound (t : Trie E) str : lookup_id t str < size_t_bound.
Proof.
  unfold lookup_id.
  destruct (trie_lookup E t (c_str str)) eqn:Hl;
    eauto using fresh_key_id_bound, trie_id_bound.
Qed.

Lemma fill_str_ids_loop l : ∀ pre rest s,
  trie_ready (trie_ s) →
  str_ids_ s = pre ++ rest → length rest = length l →
  forM_indexed E (λ i str,
      bind E (lookup str) (λ str_id,
        if 0 <=? str_id
        then modify E
               (λ s, with_str_ids (<[N.to_nat i := str_id]> (str_ids_ s)) s)
        else λ _, Aborted)) (N.of_nat (length pre)) l s =
  Done () (with_str_ids (pre ++ (lookup_id (trie_ s) <$> l)) s).
Proof.
  induction l as [|x l IH]; intros pre rest s Hready Hids Hlen.
  - destruct rest; [|done]. simpl. unfold ret. f_equal.
    destruct s; simpl in *. by subst.
  - destruct rest as [|r rest]; [done|]. injection Hlen as Hlen.
    cbn [forM_indexed]. rewrite !bind_run, lookup_run by done.
    rewrite leb_0_l. unfold modify. rewrite Nat2N.id.
    set (s1 := with_str_ids _ s).
    assert (str_ids_ s1 = (pre ++ [lookup_id (trie_ s) x]) ++ rest) as Hids1.
    { subst s1. simpl. rewrite Hids, <-app_assoc.
      replace (length pre) with (length pre + 0)%nat by lia.
      by rewrite insert_app_r. }
    replace (N.succ (N.of_nat (length pre)))
      with (N.of_nat (length (pre ++ [lookup_id (trie_ s) x])))
      by (rewrite length_app; simpl; lia).
    rewrite (IH _ rest s1) by done.
    f_equal. subst s1. unfold with_str_ids. simpl. by rewrite <-app_assoc.
Qed.

Lemma fill_str_ids_run values s :
  trie_ready (trie_ s) →
  fill_str_ids values s =
  Done () (with_str_ids (lookup_id (trie_ s) <$> values) s).
Proof.
  intros Hready. unfold fill_str_ids. rewrite bind_run. unfold modify.
  set (s1 := with_str_ids _ s).
  etrans; [apply (fill_str_ids_loop values [] (str_ids_ s1) s1)|]; try done.
  subst s1; simpl; by rewrite length_resize.
Qed.

Lemma Build_run values s :
  built_ s = false →
  Build values s = Done () (built_from values (str_ids_to_offsets_ s)).
Proof.
  intros Hb. unfold Build. rewrite bind_run. unfold gets. rewrite Hb.
  rewrite bind_run. unfold modify at 1. rewrite bind_run.
  rewrite fill_str_ids_run by (intros q; apply trie_build_lookup).
  rewrite bind_run. unfold fill_offsets, modify. done.
Qed.

Lemma Build_rejected values s :
  built_ s = true →
  Build values s = Thrown (runtime_error "index has been built") s.
Proof. intros Hb. unfold Build. rewrite bind_run. unfold gets. by rewrite Hb. Qed.

Lemma Load_run set s index t str_ids :
  Assemble K set !! MARISA_TRIE_INDEX K = Some index →
  trie_read E index = Some t →
  Assemble K set !! MARISA_STR_IDS K = Some str_ids →
  (length str_ids mod SIZE_WIDTH = 0)%nat →
  Load K set s = Done () (loaded_from t str_ids s).
Proof.
  intros Hindex Ht Hids Hal. unfold Load, GetByName.
  rewrite Hindex, bind_run. unfold ret at 1. rewrite Ht, bind_run.
  unfold modify at 1. rewrite Hids, bind_run. unfold ret at 1.
  rewrite bind_run. unfold modify at 1. rewrite bind_run. unfold gets at 1.
  rewrite bind_run.
  unfold with_str_ids at 1, with_trie at 1.
  cbn [str_ids_ trie_ str_ids_to_offsets_ built_].
  rewrite memcpy_after_resize by done. unfold require at 1.
  rewrite bind_run. unfold modify at 1.
  unfold fill_offsets, modify, loaded_from, with_offsets, with_str_ids, with_trie.
  by cbn [str_ids_ trie_ str_ids_to_offsets_ built_].
Qed.

Lemma Load_misaligned set s index t str_ids :
  Assemble K set !! MARISA_TRIE_INDEX K = Some index →
  trie_read E index = Some t →
  Assemble K set !! MARISA_STR_IDS K = Some str_ids →
  (length str_ids mod SIZE_WIDTH ≠ 0)%nat →
  Load K set s = Aborted.
Proof.
  intros Hindex Ht Hids Hal. unfold Load, GetByName.
  rewrite Hindex, bind_run. unfold ret at 1. rewrite Ht, bind_run.
  unfold modify at 1. rewrite Hids, bind_run. unfold ret at 1.
  rewrite bind_run. unfold modify at 1. rewrite bind_run. unfold gets at 1.
  rewrite bind_run.
  unfold with_str_ids at 1, with_trie at 1.
  cbn [str_ids_ trie_ str_ids_to_offsets_ built_].
  by rewrite memcpy_after_resize_misaligned.
Qed.

Lemma Load_no_trie_segment set s :
  Assemble K set !! MARISA_TRIE_INDEX K = None →
  Load K set s = Thrown (segment_missing (MARISA_TRIE_INDEX K)) s.
Proof. intros Hindex. unfold Load, GetByName. by rewrite Hindex. Qed.

Lemma Load_bad_trie set s index :
  Assemble K set !! MARISA_TRIE_INDEX K = Some index →
  trie_read E index = None →
  Load K set s = Thrown marisa_format_error s.
Proof.
  intros Hindex Ht. unfold Load, GetByName.
  rewrite Hindex, bind_run. unfold ret at 1. by rewrite Ht.
Qed.

Lemma Load_no_ids_segment set s index t :
  Assemble K set !! MARISA_TRIE_INDEX K = Some index →
  trie_read E index = Some t →
  Assemble K set !! MARISA_STR_IDS K = None →
  Load K set s = Thrown (segment_missing (MARISA_STR_IDS K)) (with_trie t s).
Proof.
  intros Hindex Ht Hids. unfold Load, GetByName.
  rewrite Hindex, bind_run. unfold ret at 1. rewrite Ht, bind_run.
  unfold modify at 1. by rewrite Hids.
Qed.

Lemma Load_Done_inv set s s' :
  Load K set s = Done () s' →
  ∃ index t str_ids,
    Assemble K set !! MARISA_TRIE_INDEX K = Some index ∧
    trie_read E index = Some t ∧
    Assemble K set !! MARISA_STR_IDS K = Some str_ids ∧
    s' = loaded_from t str_ids s.
Proof.
  intros Hload.
  destruct (Assemble K set !! MARISA_TRIE_INDEX K) as [index|] eqn:Hindex;
    [|by rewrite Load_no_trie_segment in Hload].
  destruct (trie_read E index) as [t|] eqn:Ht;
    [|by erewrite Load_bad_trie in Hload].
  destruct (Assemble K set !! MARISA_STR_IDS K) as [str_ids|] eqn:Hids;
    [|by erewrite Load_no_ids_segment in Hload].
  destruct (decide (length str_ids mod SIZE_WIDTH = 0)%nat) as [Hal|Hal];
    [|by erewrite Load_misaligned in Hload].
  erewrite Load_run in Hload by done. injection Hload as <-. eauto 10.
Qed.

Lemma Serialize_run config s index_data :
  trie_write E (trie_ s) = Some index_data →
  Serialize K config s =
  Done (Disassemble K config
          (Append (MARISA_STR_IDS K) (bytes_of_words (str_ids_ s))
             (Append (MARISA_TRIE_INDEX K) index_data ∅))) s.
Proof.
  intros Hw. unfold Serialize. rewrite bind_run. unfold gets at 1.
  by rewrite Hw.
Qed.

(** C10.  [Serialize] leaves the instance as it found it: whether it
    returns the blob set or the trie refuses to be written, the trie,
    [str_ids_], [str_ids_to_offsets_] and the built flag afterwards are
    those from before the call, so any query run after it starts from the
    very same state. *)
Theorem Serialize_leaves_instance_unchanged config s :
  match Serialize K config s with
  | Done _ s' => s' = s
  | Thrown e s' => s' = s ∧ e = marisa_state_error
  | Aborted => False
  end.
Proof.
  destruct (trie_write E (trie_ s)) as [index_data|] eqn:Hw.
  - by erewrite Serialize_run.
  - unfold Serialize. rewrite bind_run. unfold gets at 1. by rewrite Hw.
Qed.

End Lifecycle.

(** ** What the query loops compute *)

Section Marking.
Context {E : TrieEngine}.
Implicit Types (s : StringIndexMarisa E) (b : TargetBitmap).
Implicit Types (offs ids : list size_t) (V : list string).

Lemma same_rows_refl s : same_rows s s.
Proof. done. Qed.

Lemma same_rows_trans s1 s2 s3 :
  same_rows s1 s2 → same_rows s2 s3 → same_rows s1 s3.
Proof.
  intros (? & ? & ? & H12) (? & ? & ? & H23).
  split_and!; congruence.
Qed.

Lemma same_rows_in_range s s' :
  same_rows s s' → offsets_in_range s → offsets_in_range s'.
Proof.
  intros (_ & Hids & _ & Hoffs) Hr id o. rewrite Hoffs, Hids. apply Hr.
Qed.

Lemma offsets_at_run s id :
  ∃ s', offsets_at id s = Done (offsets_of s id) s' ∧ same_rows s s'.
Proof.
  unfold offsets_at, offsets_of.
  destruct (str_ids_to_offsets_ s !! id) as [offs|] eqn:Hid; simpl.
  - eauto using same_rows_refl.
  - eexists. split; [done|]. split_and!; try done.
    intros id'. unfold offsets_of. simpl.
    destruct (decide (id = id')) as [<-|Hne].
    + by rewrite lookup_insert_eq, Hid.
    + by rewrite lookup_insert_ne.
Qed.

Lemma set_offsets_run offs : ∀ b s,
  Forall (λ o, N.to_nat o < length b)%nat offs →
  ∃ b', foldM E (λ bitset offset, require E (bitset_set offset bitset))
          b offs s = Done b' s ∧
    length b' = length b ∧
    ∀ i : nat, b' !! i = Some true ↔ b !! i = Some true ∨ N.of_nat i ∈ offs.
Proof.
  induction offs as [|o offs IH]; intros b s Hall.
  - exists b. split_and!; [done..|]. intros i. rewrite elem_of_nil. tauto.
  - apply list.Forall_cons in Hall as [Ho Hall].
    rewrite foldM_cons. unfold require at 1, bitset_set at 1, bitset_put.
    rewrite decide_True by done.
    destruct (IH (<[N.to_nat o := true]> b) s) as (b' & -> & Hlen & Hbits).
    { by rewrite length_insert. }
    exists b'. rewrite length_insert in Hlen. split_and!; [done..|].
    intros i. rewrite Hbits, elem_of_cons.
    destruct (decide (i = N.to_nat o)) as [->|Hne].
    + rewrite list_lookup_insert_eq by done. rewrite N2Nat.id. tauto.
    + rewrite list_lookup_insert_ne by done.
      assert (N.of_nat i ≠ o) by lia. tauto.
Qed.

Lemma set_offsets_steady offs : ∀ b s,
  (∃ b', foldM E (λ bitset offset, require E (bitset_set offset bitset))
           b offs s = Done b' s) ∨
  foldM E (λ bitset offset, require E (bitset_set offset bitset))
    b offs s = Aborted.
Proof.
  induction offs as [|o offs IH]; intros b s; [left; by exists b|].
  rewrite foldM_cons. unfold require at 1 3.
  destruct (bitset_set o b); [apply IH | by right].
Qed.

(** The loop shared by [In] (over the looked-up ids) and [PrefixMatch]
    (over the matched ids). *)
Lemma mark_ids_run ids : ∀ b s,
  offsets_in_range s → length b = length (str_ids_ s) →
  ∃ b' s',
    foldM E (λ bitset str_id,
      bind E (offsets_at str_id) (λ offsets,
        foldM E (λ bitset offset, require E (bitset_set offset bitset))
          bitset offsets)) b ids s = Done b' s' ∧
    same_rows s s' ∧ length b' = length b ∧
    ∀ i : nat, b' !! i = Some true ↔
      b !! i = Some true ∨ ∃ id, id ∈ ids ∧ N.of_nat i ∈ offsets_of s id.
Proof.
  induction ids as [|id ids IH]; intros b s Hr Hlen.
  - exists b, s. split_and!; [done..|]. intros i. split; [tauto|].
    intros [?|(? & []%elem_of_nil & _)]; done.
  - rewrite foldM_cons, bind_run.
    destruct (offsets_at_run s id) as (s1 & -> & Hs1).
    destruct (set_offsets_run (offsets_of s id) b s1) as (b1 & -> & Hlen1 & Hb1).
    { apply list.Forall_forall. intros o Ho. rewrite Hlen. by eapply Hr. }
    destruct (IH b1 s1) as (b' & s' & -> & Hs' & Hlen' & Hb').
    { by eapply same_rows_in_range. }
    { destruct Hs1 as (_ & -> & _). congruence. }
    exists b', s'. split_and!; [done | by eapply same_rows_trans | congruence |].
    intros i. rewrite Hb', Hb1. destruct Hs1 as (_ & _ & _ & Hoffs). split.
    + intros [[?|?]|(id' & ? & Hi)]; [tauto|right..].
      * exists id. by rewrite elem_of_cons; auto.
      * exists id'. rewrite elem_of_cons, <-Hoffs. auto.
    + intros [?|(id' & [->|?]%elem_of_cons & Hi)]; [tauto..|].
      right. exists id'. by rewrite Hoffs.
Qed.

Lemma In_loop_as_ids V : ∀ b s,
  trie_ready (trie_ s) →
  (∀ s', same_rows s s' →
     foldM E (λ bitset str,
       bind E (lookup str) (λ str_id,
         if 0 <=? str_id then
           bind E (offsets_at str_id) (λ offsets,
             foldM E (λ bitset offset, require E (bitset_set offset bitset))
               bitset offsets)
         else ret E bitset)) b V s' =
     foldM E (λ bitset str_id,
       bind E (offsets_at str_id) (λ offsets,
         foldM E (λ bitset offset, require E (bitset_set offset bitset))
           bitset offsets)) b (lookup_id (trie_ s) <$> V) s').
Proof.
  induction V as [|v V IH]; intros b s Hready s' Hs'; [done|].
  rewrite fmap_cons, !foldM_cons, bind_run.
  assert (trie_ s' = trie_ s) as Ht by apply Hs'.
  rewrite lookup_run by (by rewrite Ht). rewrite leb_0_l, Ht.
  destruct (bind E _ _ s') as [b1 s1|e s1|] eqn:Hstep; [|done..].
  apply IH; [done|]. eapply same_rows_trans; [done|].
  rewrite bind_run in Hstep.
  destruct (offsets_at_run s' (lookup_id (trie_ s) v)) as (s2 & Hs2 & Hrows).
  rewrite Hs2 in Hstep.
  destruct (set_offsets_steady (offsets_of s' (lookup_id (trie_ s) v)) b s2)
    as [(b2 & Hb2)|Hb2]; rewrite Hb2 in Hstep; [|done].
  by injection Hstep as <- <-.
Qed.

End Marking.

Section QuerySpecs.
Context {E : TrieEngine}.
Implicit Types (s : StringIndexMarisa E) (b : TargetBitmap).
Implicit Types (offs ids : list size_t) (V : list string).

Lemma bitset_make_length n : length (bitset_make n) = n.
Proof. apply length_replicate. Qed.

Lemma bitset_make_clear n (i : nat) : bitset_make n !! i ≠ Some true.
Proof.
  unfold bitset_make. intros Hi. by apply lookup_replicate in Hi as [? _].
Qed.

(** [In] on an instance whose trie answers and whose offsets address rows:
    it returns, and bit [i] is set exactly when offset [i] is recorded
    under the id that [lookup] yields for one of the values. *)
Lemma In_run V s :
  offsets_in_range s → trie_ready (trie_ s) →
  ∃ b s', In V s = Done b s' ∧ same_rows s s' ∧
    length b = length (str_ids_ s) ∧
    ∀ i : nat, b !! i = Some true ↔
      ∃ v, v ∈ V ∧ N.of_nat i ∈ offsets_of s (lookup_id (trie_ s) v).
Proof.
  intros Hr Hready. unfold In. rewrite bind_run. unfold gets.
  rewrite (In_loop_as_ids V _ s Hready s) by apply same_rows_refl.
  destruct (mark_ids_run (lookup_id (trie_ s) <$> V)
              (bitset_make (length (str_ids_ s))) s)
    as (b & s' & -> & Hs' & Hlen & Hbits); [done | apply bitset_make_length|].
  exists b, s'. rewrite bitset_make_length in Hlen. split_and!; [done..|].
  intros i. rewrite Hbits. split.
  - intros [?%bitset_make_clear|(id & (v & -> & Hv)%list_elem_of_fmap & Hi)];
      [done | eauto].
  - intros (v & Hv & Hi). right. eexists. split; [|done].
    apply list_elem_of_fmap. eauto.
Qed.

(** [NotIn] on such an instance: the complement. *)
Lemma NotIn_run V s :
  offsets_in_range s → trie_ready (trie_ s) →
  ∃ b s', In V s = Done b s' ∧ NotIn V s = Done (bitset_flip b) s'.
Proof.
  intros Hr Hready. destruct (In_run V s Hr Hready) as (b & s' & HIn & _).
  exists b, s'. split; [done|]. by rewrite NotIn_outcome, HIn.
Qed.

(** [PrefixMatch] on such an instance: bit [i] is set exactly when offset
    [i] is recorded under one of the ids the trie enumerates. *)
Lemma PrefixMatch_run prefix s ids :
  offsets_in_range s →
  trie_predictive_search E (trie_ s) (c_str prefix) = Some ids →
  ∃ b s', PrefixMatch prefix s = Done b s' ∧ same_rows s s' ∧
    length b = length (str_ids_ s) ∧
    ∀ i : nat, b !! i = Some true ↔
      ∃ id, id ∈ ids ∧ N.of_nat i ∈ offsets_of s id.
Proof.
  intros Hr Hids. unfold PrefixMatch. rewrite bind_run. unfold gets.
  rewrite bind_run. unfold prefix_match at 1. rewrite Hids.
  destruct (mark_ids_run ids (bitset_make (length (str_ids_ s))) s)
    as (b & s' & -> & Hs' & Hlen & Hbits); [done | apply bitset_make_length|].
  exists b, s'. rewrite bitset_make_length in Hlen. split_and!; [done..|].
  intros i. rewrite Hbits. split; [|by right].
  by intros [?%bitset_make_clear|?].
Qed.

(** *** The built flag plays no part in a query *)

Lemma flag_blind_ret {A} (a : A) : flag_blind (ret E a).
Proof. done. Qed.

Lemma flag_blind_require {A} (o : option A) : flag_blind (require E o).
Proof. intros flag s. by destruct o. Qed.

Lemma flag_blind_bind {A B} (m : M E A) (k : A → M E B) :
  flag_blind m → (∀ a, flag_blind (k a)) → flag_blind (bind E m k).
Proof.
  intros Hm Hk flag s. rewrite !bind_run, Hm.
  destruct (m s) as [a s'|e s'|]; simpl; [apply Hk | done..].
Qed.

Lemma flag_blind_foldM {A B} (body : B → A → M E B) l :
  (∀ acc x, flag_blind (body acc x)) → ∀ acc, flag_blind (foldM E body acc l).
Proof.
  intros Hbody. induction l as [|x l IH]; intros acc; [done|].
  cbn [foldM]. apply flag_blind_bind; auto.
Qed.

Lemma flag_blind_lookup str : flag_blind (lookup (E:=E) str).
Proof.
  intros flag s. unfold lookup. simpl.
  by destruct (trie_lookup E (trie_ s) (c_str str)).
Qed.

Lemma flag_blind_prefix_match prefix : flag_blind (prefix_match (E:=E) prefix).
Proof.
  intros flag s. unfold prefix_match. simpl.
  by destruct (trie_predictive_search E (trie_ s) (c_str prefix)).
Qed.

Lemma flag_blind_offsets_at id : flag_blind (offsets_at (E:=E) id).
Proof.
  intros flag s. unfold offsets_at. simpl.
  by destruct (str_ids_to_offsets_ s !! id).
Qed.

Lemma flag_blind_In V : flag_blind (In (E:=E) V).
Proof.
  unfold In. apply flag_blind_bind; [done|]. intros b0.
  apply flag_blind_foldM. intros b v.
  apply flag_blind_bind; [apply flag_blind_lookup|]. intros id.
  rewrite leb_0_l.
  apply flag_blind_bind; [apply flag_blind_offsets_at|]. intros offs.
  apply flag_blind_foldM. intros b' o. apply flag_blind_require.
Qed.

Lemma flag_blind_NotIn V : flag_blind (NotIn (E:=E) V).
Proof.
  intros flag s. rewrite !NotIn_outcome, flag_blind_In.
  by destruct (In V s).
Qed.

Lemma flag_blind_PrefixMatch prefix : flag_blind (PrefixMatch (E:=E) prefix).
Proof.
  unfold PrefixMatch. apply flag_blind_bind; [done|]. intros b0.
  apply flag_blind_bind; [apply flag_blind_prefix_match|]. intros ids.
  apply flag_blind_foldM. intros b id.
  apply flag_blind_bind; [apply flag_blind_offsets_at|]. intros offs.
  apply flag_blind_foldM. intros b' o. apply flag_blind_require.
Qed.

Lemma observe_restate {A} f (o : outcome E A) : observe (restate f o) = observe o.
Proof. by destruct o. Qed.

End QuerySpecs.

(** ** Instances built by [Build] or [Load] *)

Section Built.
Context {E : TrieEngine} (K : Knowhere).
Implicit Types (s X Y : StringIndexMarisa E) (values V : list string).

Lemma fill_from_empty ids id :
  fill_offsets_loop 0 ids (∅ : gmap N (list size_t)) !! id =
  match positions 0 ids id with [] => None | ps => Some ps end.
Proof.
  rewrite fill_offsets_loop_lookup, lookup_empty.
  by destruct (positions 0 ids id).
Qed.

Lemma consistent_lookup s id offsets :
  consistent s →
  str_ids_to_offsets_ s !! id = Some offsets →
  offsets = positions 0 (str_ids_ s) id.
Proof.
  intros -> Hid. rewrite fill_from_empty in Hid.
  destruct (positions 0 (str_ids_ s) id); congruence.
Qed.

Lemma consistent_offsets_of s id :
  consistent s → offsets_of s id = positions 0 (str_ids_ s) id.
Proof.
  intros Hc. unfold offsets_of. rewrite Hc, fill_from_empty.
  by destruct (positions 0 (str_ids_ s) id).
Qed.

Lemma consistent_offset s id (i : nat) :
  consistent s →
  N.of_nat i ∈ offsets_of s id ↔ str_ids_ s !! i = Some id.
Proof.
  intros Hc. rewrite consistent_offsets_of, elem_of_positions by done. split.
  - intros (n & Hn & Hid). by replace i with n by lia.
  - intros Hi. exists i. split; [lia | done].
Qed.

Lemma consistent_in_range s : consistent s → offsets_in_range s.
Proof.
  intros Hc id o. rewrite consistent_offsets_of by done.
  intros (n & -> & Hn%lookup_lt_Some)%elem_of_positions. lia.
Qed.

Lemma consistent_partition s : consistent s → offset_partition s.
Proof.
  intros Hc. split_and!.
  - intros o id Ho.
    assert (N.of_nat o ∈ positions 0 (str_ids_ s) id) as Hin.
    { apply elem_of_positions. exists o. split; [lia | done]. }
    exists (positions 0 (str_ids_ s) id). split.
    + rewrite Hc, fill_from_empty.
      destruct (positions 0 (str_ids_ s) id); [by apply elem_of_nil in Hin | done].
    + apply NoDup_count_one; [|done].
      apply StronglySorted_lt_NoDup, positions_sorted.
  - intros id offsets o Hid Ho.
    rewrite (consistent_lookup s id offsets Hc Hid) in Ho.
    apply elem_of_positions in Ho as (n & -> & Hn).
    by replace (N.to_nat (0 + N.of_nat n)) with n by lia.
  - intros id offsets Hid. rewrite (consistent_lookup s id offsets Hc Hid).
    apply positions_sorted.
Qed.

Lemma Build_fresh values :
  Build values (fresh E) = Done () (built_from values ∅).
Proof. by rewrite Build_run. Qed.

Lemma built_instance_consistent X : built_instance K X → consistent X.
Proof.
  destruct 1 as [values Z HX|set Z HX].
  - rewrite Build_fresh in HX. by injection HX as <-.
  - apply Load_Done_inv in HX as (index & t & str_ids & _ & _ & _ & ->). done.
Qed.

Lemma built_instance_ready X :
  built_instance K X →
  trie_ready (trie_ X) ∧ ∀ p, is_Some (trie_predictive_search E (trie_ X) p).
Proof.
  destruct 1 as [values Z HX|set Z HX].
  - rewrite Build_fresh in HX. injection HX as <-. split.
    + intros q. apply trie_build_lookup.
    + intros p. simpl.
      destruct (trie_build_predictive E (c_str <$> values) p) as (ids & -> & _).
      by eexists.
  - apply Load_Done_inv in HX as (index & t & str_ids & _ & Ht & _ & ->).
    split; [intros q|intros p]; simpl;
      eauto using trie_read_lookup, trie_read_predictive.
Qed.

Lemma built_instance_bounds X :
  built_instance K X →
  Forall (λ w, w < size_t_bound) (str_ids_ X) ∧
  is_Some (trie_write E (trie_ X)).
Proof.
  destruct 1 as [values Z HX|set Z HX].
  - rewrite Build_fresh in HX. injection HX as <-. simpl. split.
    + apply list.Forall_forall. intros id (v & -> & _)%list_elem_of_fmap.
      apply lookup_id_bound.
    + apply trie_build_write.
  - apply Load_Done_inv in HX as (index & t & str_ids & _ & Ht & _ & ->).
    simpl. split; [apply words_of_bytes_bound | by eapply trie_write_read].
Qed.

(** C3.  After [Build] over [n] values on a fresh instance, and after a
    [Load] that completes on a fresh instance, every row offset [o] occurs
    exactly once in the list kept for [str_ids_[o]], an offset occurs in the
    list of an id only if that id is the one of its row (so the lists are
    disjoint and hold nothing but offsets below [n]), and every list is in
    ascending order.  [Build] on a fresh instance always completes and
    leaves [n] rows. *)
Theorem offset_partition_after_Build_or_Load :
  (∀ values, ∃ X,
     Build values (fresh E) = Done () X ∧
     length (str_ids_ X) = length values ∧ offset_partition X) ∧
  (∀ set X, Load K set (fresh E) = Done () X → offset_partition X).
Proof.
  split.
  - intros values. exists (built_from values ∅). split_and!.
    + apply Build_fresh.
    + simpl. by rewrite length_fmap.
    + by apply consistent_partition.
  - intros set X HX.
    by apply consistent_partition, built_instance_consistent, (built_by_Load K set).
Qed.

(** *** Running [fill_offsets] again *)



(** *** Serialize, then Load *)

Lemma Serialize_then_Load X config :
  built_instance K X →
  ∃ blob, Serialize K config X = Done blob X ∧
    Load K blob (fresh E) = Done () (with_built false X).
Proof.
  intros HX.
  destruct (built_instance_bounds X HX) as [Hbound [index_data Hw]].
  eexists. split; [by apply Serialize_run|].
  erewrite Load_run; cycle 1.
  - rewrite assemble_disassemble. unfold Append.
    rewrite lookup_insert_ne by (apply not_eq_sym, segment_names_differ).
    apply lookup_insert_eq.
  - by eapply trie_read_write.
  - rewrite assemble_disassemble. apply lookup_insert_eq.
  - rewrite bytes_of_words_length, Nat.mul_comm. apply Nat.Div0.mod_mul.
  - unfold loaded_from, with_built, fresh.
    cbn [trie_ str_ids_ str_ids_to_offsets_ built_].
    rewrite bytes_of_words_length, Nat.mul_comm, Nat.div_mul by done.
    rewrite <-(app_nil_r (bytes_of_words _)).
    rewrite words_of_bytes_of_words by done.
    by rewrite <-(built_instance_consistent X HX).
Qed.

(** C1.  For an instance [X] produced by [Build] or by [Load] on a fresh
    instance, [Serialize] returns a blob set and leaves [X] as it is, [Load]
    of that blob set into a fresh instance completes, and on the loaded
    instance [In], [NotIn] and [PrefixMatch] return, for every list of
    values and every prefix, the very bitmap they return on [X]. *)
Theorem Load_Serialize_roundtrip X config :
  built_instance K X →
  ∃ blob Y,
    Serialize K config X = Done blob X ∧
    Load K blob (fresh E) = Done () Y ∧
    (∀ V, ∃ b, observe (In V X) = Returned b ∧
               observe (In V Y) = Returned b) ∧
    (∀ V, ∃ b, observe (NotIn V X) = Returned b ∧
               observe (NotIn V Y) = Returned b) ∧
    (∀ prefix, ∃ b, observe (PrefixMatch prefix X) = Returned b ∧
                    observe (PrefixMatch prefix Y) = Returned b).
Proof.
  intros HX. destruct (Serialize_then_Load X config HX) as (blob & HS & HL).
  pose proof (consistent_in_range X (built_instance_consistent X HX)) as Hr.
  destruct (built_instance_ready X HX) as [Hready Henum].
  exists blob, (with_built false X). split_and!; [done..| | |].
  - intros V. destruct (In_run V X Hr Hready) as (b & s' & HIn & _).
    exists b. by rewrite flag_blind_In, HIn.
  - intros V. destruct (NotIn_run V X Hr Hready) as (b & s' & _ & HNotIn).
    exists (bitset_flip b). by rewrite flag_blind_NotIn, HNotIn.
  - intros prefix. destruct (Henum (c_str prefix)) as [ids Hids].
    destruct (PrefixMatch_run prefix X ids Hr Hids) as (b & s' & HP & _).
    exists b. by rewrite flag_blind_PrefixMatch, HP.
Qed.

End Built.

(** ** Lifecycle, failure modes and query semantics *)

Section Claims.
Context {E : TrieEngine} (K : Knowhere).
Implicit Types (s X Y : StringIndexMarisa E) (values V : list string).

(** C2.  In every state of the instance and for every list of query values,
    [NotIn] ends the way [In] does, and where [In] returns a bitmap [NotIn]
    returns its bitwise negation, leaving the same state behind.  On an
    instance produced by [Build] or [Load] both do return, with one bit per
    row. *)
Theorem NotIn_is_In_negated :
  (∀ s V, NotIn V s = outcome_map bitset_flip (In V s)) ∧
  (∀ X V, built_instance K X →
     ∃ b s', In V X = Done b s' ∧ NotIn V X = Done (bitset_flip b) s' ∧
       length b = length (str_ids_ X)).
Proof.
  split; [apply NotIn_outcome|]. intros X V HX.
  pose proof (consistent_in_range X (built_instance_consistent K X HX)) as Hr.
  destruct (built_instance_ready K X HX) as [Hready _].
  destruct (In_run V X Hr Hready) as (b & s' & HIn & _ & Hlen & _).
  exists b, s'. split_and!; [done | | done].
  by rewrite NotIn_outcome, HIn.
Qed.

(** [Load] never writes the built flag, so a [Build] that follows a [Load]
    on a fresh instance is let through and runs over the loaded state. *)
Lemma Build_after_Load set X values :
  Load K set (fresh E) = Done () X →
  built_ X = false ∧
  Build values X = Done () (built_from values (str_ids_to_offsets_ X)).
Proof.
  intros (index & t & str_ids & _ & _ & _ & ->)%Load_Done_inv.
  split; [done|]. by apply Build_run.
Qed.

(** X2.  A second [Build] on an instance that [Build] has completed on is
    rejected with the runtime error and leaves the state as it is. *)
Lemma Build_twice values values' :
  ∃ X, Build values (fresh E) = Done () X ∧
    Build values' X = Thrown (runtime_error "index has been built") X.
Proof.
  exists (built_from values ∅). split; [apply Build_fresh|].
  by apply Build_rejected.
Qed.

(** C5, as the code has it.  [Load] checks nothing itself; how it ends is
    decided by the collaborators, in this order.  Without the trie segment,
    or with a trie segment the Trie Engine rejects, it fails and the
    instance is as before.  Without the offsets segment it fails after the
    trie has been replaced.  With both segments, a trie that decodes and an
    offsets segment that is a whole number of integers, it completes and
    [str_ids_] receives those integers.  The built flag is never
    written. *)
Theorem Load_outcomes set s :
  match Assemble K set !! MARISA_TRIE_INDEX K with
  | None => Load K set s = Thrown (segment_missing (MARISA_TRIE_INDEX K)) s
  | Some index =>
      match trie_read E index with
      | None => Load K set s = Thrown marisa_format_error s
      | Some t =>
          match Assemble K set !! MARISA_STR_IDS K with
          | None =>
              Load K set s =
              Thrown (segment_missing (MARISA_STR_IDS K)) (with_trie t s)
          | Some str_ids =>
              (length str_ids mod SIZE_WIDTH = 0)%nat →
              Load K set s =
              Done () (mkIndex t
                (words_of_bytes (length str_ids / SIZE_WIDTH)%nat str_ids)
                (fill_offsets_loop 0
                   (words_of_bytes (length str_ids / SIZE_WIDTH)%nat str_ids)
                   (str_ids_to_offsets_ s))
                (built_ s))
          end
      end
  end.
Proof.
  destruct (Assemble K set !! MARISA_TRIE_INDEX K) as [index|] eqn:Hindex;
    [|by apply Load_no_trie_segment].
  destruct (trie_read E index) as [t|] eqn:Ht; [|by eapply Load_bad_trie].
  destruct (Assemble K set !! MARISA_STR_IDS K) as [str_ids|] eqn:Hids.
  - intros Hal. by erewrite Load_run.
  - by eapply Load_no_ids_segment.
Qed.

(** X1.  What [In] computes on an instance that [Build] produced from [values]:
    row [i] is reported when one of the query values equals the row's value
    (both as the trie sees them, up to the first NUL), and also when a query
    value is not a key of the trie while the row's id happens to be the id
    an agent carries after a miss. *)
Lemma In_after_Build values V :
  N.of_nat (length values) < size_t_bound →
  ∃ b s', In V (built_from (E:=E) values ∅) = Done b s' ∧
    length b = length values ∧
    ∀ (i : nat) row, values !! i = Some row →
      (b !! i = Some true ↔
       ∃ v, v ∈ V ∧
         (c_str v = c_str row ∨
          ((c_str v ∉ (c_str <$> values)) ∧
           lookup_id (trie_build E (c_str <$> values)) row = fresh_key_id E))).
Proof.
  intros Hlen. set (X := built_from values ∅).
  set (t := trie_build E (c_str <$> values)).
  assert (consistent X) as Hc by done.
  destruct (In_run V X) as (b & s' & HIn & _ & Hb & Hbits).
  { by apply consistent_in_range. }
  { intros q. apply trie_build_lookup. }
  exists b, s'. split_and!; [done | by rewrite Hb; simpl; rewrite length_fmap|].
  intros i row Hrow. rewrite Hbits.
  assert (Hkeys : ∀ q, q ∈ (c_str <$> values) ↔ ∃ id, trie_lookup E t q = Hit id).
  { intros q. apply trie_build_hit. by rewrite length_fmap. }
  assert (∃ idr, trie_lookup E t (c_str row) = Hit idr) as [idr Hidr].
  { apply Hkeys, list_elem_of_fmap. exists row. split; [done|].
    by eapply list_elem_of_lookup_2. }
  assert (∀ v, N.of_nat i ∈ offsets_of X (lookup_id (trie_ X) v) ↔
               lookup_id t v = idr) as Hoff.
  { intros v. rewrite consistent_offset by done. simpl.
    rewrite list_lookup_fmap, Hrow. simpl. fold t.
    unfold lookup_id at 1. rewrite Hidr. split; [by intros [= ->] | by intros ->]. }
  split.
  - intros (v & Hv & Hi). exists v. split; [done|]. apply Hoff in Hi.
    unfold lookup_id in Hi |- *. rewrite Hidr.
    destruct (trie_lookup E t (c_str v)) as [| |idv] eqn:Hlv.
    + by apply trie_build_lookup in Hlv.
    + right. split; [|done]. intros [id Hid]%Hkeys. congruence.
    + left. subst idv. by eapply trie_build_inj.
  - intros (v & Hv & Hcase). exists v. split; [done|]. apply Hoff.
    unfold lookup_id in Hcase |- *. destruct Hcase as [Heq|[Hnot Hfresh]].
    + by rewrite Heq, Hidr.
    + rewrite Hidr in Hfresh.
      destruct (trie_lookup E t (c_str v)) as [| |idv] eqn:Hlv; [done..|].
      destruct Hnot. apply Hkeys. eauto.
Qed.

(** C7, at the input that breaks it.  [Build] over no values leaves an empty
    [str_ids_to_offsets_].  [In] with a single value then misses in the
    trie, takes the id the agent carries, and the read through
    [operator[]] stores an empty list under that id: the state after the
    query is not the state before it. *)
Theorem In_on_empty_index_inserts (v : string) :
  ∃ X s',
    Build [] (fresh E) = Done () X ∧
    str_ids_to_offsets_ X = ∅ ∧
    In [v] X = Done [] s' ∧
    str_ids_to_offsets_ s' = {[ fresh_key_id E := [] ]} ∧
    s' ≠ X.
Proof.
  exists (built_from [] ∅). eexists. split_and!; [apply Build_fresh | done | | |].
  - unfold In. rewrite bind_run. unfold gets. rewrite foldM_cons, bind_run.
    unfold lookup at 1. simpl.
    destruct (trie_lookup E (trie_build E []) (c_str v)) as [| |id] eqn:Hl.
    + by apply trie_build_lookup in Hl.
    + rewrite leb_0_l, bind_run. unfold offsets_at at 1. simpl.
      rewrite lookup_empty. simpl. done.
    + assert (c_str v ∈ ([] : list string)) as []%elem_of_nil.
      apply (trie_build_hit E); [done | eauto].
  - done.
  - intros Heq. apply (f_equal (λ s, str_ids_to_offsets_ s !! fresh_key_id E)) in Heq.
    simpl in Heq. by rewrite lookup_insert_eq, lookup_empty in Heq.
Qed.

(** C8, as the code has it.  The queries do not look at the built flag.
    On a freshly constructed instance a query that reaches the trie ([In]
    and [NotIn] with at least one value, [PrefixMatch] with any prefix) is
    stopped by the Trie Engine's state error and leaves the instance as it
    is; [In] and [NotIn] with no values return the empty bitmap. *)
Theorem queries_on_fresh_instance :
  (∀ v V, In (v :: V) (fresh E) = Thrown marisa_state_error (fresh E)) ∧
  (∀ v V, NotIn (v :: V) (fresh E) = Thrown marisa_state_error (fresh E)) ∧
  (∀ prefix, PrefixMatch prefix (fresh E) =
             Thrown marisa_state_error (fresh E)) ∧
  In [] (fresh E) = Done [] (fresh E) ∧
  NotIn [] (fresh E) = Done [] (fresh E).
Proof.
  assert (HIn : ∀ v V, In (v :: V) (fresh E) = Thrown marisa_state_error (fresh E)).
  { intros v V. unfold In. rewrite bind_run. unfold gets.
    rewrite foldM_cons, bind_run. unfold lookup at 1. simpl.
    by rewrite trie_new_lookup. }
  split_and!; [done | | | done | done].
  - intros v V. by rewrite NotIn_outcome, HIn.
  - intros prefix. unfold PrefixMatch. rewrite bind_run. unfold gets.
    rewrite bind_run. unfold prefix_match at 1. simpl.
    by rewrite trie_new_predictive.
Qed.

End Claims.

(** ** Further facts about the operations *)

Lemma c_str_idemp s : c_str (c_str s) = c_str s.
Proof.
  induction s as [|c s IH]; [done|]. simpl.
  destruct (Ascii.eqb c Ascii.zero) eqn:Hc; [done|]. simpl.
  by rewrite Hc, IH.
Qed.

Lemma prefix_refl s : String.prefix s s = true.
Proof.
  induction s as [|c s IH]; [done|]. simpl.
  by destruct (Ascii.ascii_dec c c).
Qed.

Lemma prefix_empty s : String.prefix "" s = true.
Proof. by destruct s. Qed.

(** Two bitmaps of one length with the same set bits are the same. *)
Lemma bitmap_ext (b1 b2 : TargetBitmap) :
  length b1 = length b2 →
  (∀ i : nat, b1 !! i = Some true ↔ b2 !! i = Some true) →
  b1 = b2.
Proof.
  intros Hlen Hbits. apply list_eq. intros i.
  destruct (b1 !! i) as [x|] eqn:H1, (b2 !! i) as [y|] eqn:H2.
  - specialize (Hbits i). rewrite H1, H2 in Hbits.
    destruct x, y; try done; destruct Hbits as [Ha Hb];
      [by discriminate Ha | by discriminate Hb].
  - apply lookup_lt_Some in H1. apply lookup_ge_None in H2. lia.
  - apply lookup_ge_None in H1. apply lookup_lt_Some in H2. lia.
  - done.
Qed.

Lemma bitset_flip_set (b : TargetBitmap) (i : nat) :
  bitset_flip b !! i = Some true ↔ b !! i = Some false.
Proof.
  unfold bitset_flip. rewrite list_lookup_fmap.
  destruct (b !! i) as [[]|]; simpl; split; congruence.
Qed.

Section MoreFacts.
Context {E : TrieEngine} (K : Knowhere).
Implicit Types (s X : StringIndexMarisa E) (b : TargetBitmap).
Implicit Types (ids : list size_t) (values V : list string).

Lemma lookup_id_c_str (t : Trie E) str :
  lookup_id t (c_str str) = lookup_id t str.
Proof. unfold lookup_id. by rewrite c_str_idemp. Qed.

Lemma built_from_c_str values (m : gmap N (list size_t)) :
  built_from (E:=E) (c_str <$> values) m = built_from values m.
Proof.
  assert (c_str <$> (c_str <$> values) = c_str <$> values) as Hkeys.
  { rewrite <-list_fmap_compose. apply list_fmap_ext.
    intros ? v _. apply c_str_idemp. }
  unfold built_from. rewrite Hkeys. cbv zeta. f_equal.
  - rewrite <-list_fmap_compose. apply list_fmap_ext.
    intros ? v _. apply lookup_id_c_str.
  - f_equal. rewrite <-list_fmap_compose. apply list_fmap_ext.
    intros ? v _. apply lookup_id_c_str.
Qed.

Lemma foldM_fmap_ext {A B} (body : B → A → M E B) (f : A → A) l :
  (∀ acc x s, body acc (f x) s = body acc x s) →
  ∀ acc s, foldM E body acc (f <$> l) s = foldM E body acc l s.
Proof.
  intros Hbody. induction l as [|x l IH]; intros acc s; [done|].
  rewrite fmap_cons, !foldM_cons, Hbody.
  destruct (body acc x s); [apply IH | done..].
Qed.

Lemma lookup_c_str str s : lookup (c_str str) s = lookup str s.
Proof. unfold lookup. by rewrite c_str_idemp. Qed.

(** *** States that no query tells apart *)

Lemma same_rows_sym s s' : same_rows s s' → same_rows s' s.
Proof. intros (? & ? & ? & Hoffs). split_and!; try done. Qed.

Lemma keeper_ret {A} (a : A) : keeper (ret E a).
Proof. intros s. apply same_rows_refl. Qed.

Lemma keeper_require {A} (o : option A) : keeper (require E o).
Proof. intros s. unfold require. destruct o; [apply same_rows_refl | done]. Qed.

Lemma keeper_bind {A B} (m : M E A) (k : A → M E B) :
  keeper m → (∀ a, keeper (k a)) → keeper (bind E m k).
Proof.
  intros Hm Hk s. rewrite bind_run. specialize (Hm s).
  destruct (m s) as [a s1|e s1|]; [|done..].
  specialize (Hk a s1). simpl in Hm.
  destruct (k a s1); simpl in *; eauto using same_rows_trans.
Qed.

Lemma keeper_foldM {A B} (body : B → A → M E B) l :
  (∀ acc x, keeper (body acc x)) → ∀ acc, keeper (foldM E body acc l).
Proof.
  intros Hbody. induction l as [|x l IH]; intros acc; [apply keeper_ret|].
  cbn [foldM]. apply keeper_bind; auto.
Qed.

Lemma keeper_lookup str : keeper (lookup (E:=E) str).
Proof.
  intros s. unfold lookup.
  destruct (trie_lookup E (trie_ s) (c_str str)); apply same_rows_refl.
Qed.

Lemma keeper_prefix_match prefix : keeper (prefix_match (E:=E) prefix).
Proof.
  intros s. unfold prefix_match.
  destruct (trie_predictive_search E (trie_ s) (c_str prefix));
    apply same_rows_refl.
Qed.

Lemma keeper_offsets_at id : keeper (offsets_at (E:=E) id).
Proof. intros s. by destruct (offsets_at_run s id) as (s' & -> & ?). Qed.

Lemma keeper_In V : keeper (In (E:=E) V).
Proof.
  unfold In. apply keeper_bind; [intros s; apply same_rows_refl|]. intros b0.
  apply keeper_foldM. intros b v.
  apply keeper_bind; [apply keeper_lookup|]. intros id. rewrite leb_0_l.
  apply keeper_bind; [apply keeper_offsets_at|]. intros offs.
  apply keeper_foldM. intros b' o. apply keeper_require.
Qed.

Lemma keeper_NotIn V : keeper (NotIn (E:=E) V).
Proof.
  intros s. rewrite NotIn_outcome. pose proof (keeper_In V s) as HIn.
  by destruct (In V s).
Qed.

Lemma keeper_PrefixMatch prefix : keeper (PrefixMatch (E:=E) prefix).
Proof.
  unfold PrefixMatch. apply keeper_bind; [intros s; apply same_rows_refl|].
  intros b0. apply keeper_bind; [apply keeper_prefix_match|]. intros ids.
  apply keeper_foldM. intros b id.
  apply keeper_bind; [apply keeper_offsets_at|]. intros offs.
  apply keeper_foldM. intros b' o. apply keeper_require.
Qed.

Lemma respects_ret {A} (a : A) : respects_rows (ret E a).
Proof. by intros s1 s2 Hs. Qed.

Lemma respects_require {A} (o : option A) : respects_rows (require E o).
Proof. intros s1 s2 Hs. unfold require. by destruct o. Qed.

Lemma respects_bind {A B} (m : M E A) (k : A → M E B) :
  respects_rows m → (∀ a, respects_rows (k a)) → respects_rows (bind E m k).
Proof.
  intros Hm Hk s1 s2 Hs. rewrite !bind_run. specialize (Hm s1 s2 Hs).
  destruct (m s1) as [a1 t1|e1 t1|], (m s2) as [a2 t2|e2 t2|]; try done.
  destruct Hm as [<- Ht]. by apply Hk.
Qed.

Lemma respects_foldM {A B} (body : B → A → M E B) l :
  (∀ acc x, respects_rows (body acc x)) →
  ∀ acc, respects_rows (foldM E body acc l).
Proof.
  intros Hbody. induction l as [|x l IH]; intros acc; [apply respects_ret|].
  cbn [foldM]. apply respects_bind; auto.
Qed.

Lemma respects_lookup str : respects_rows (lookup (E:=E) str).
Proof.
  intros s1 s2 Hs. unfold lookup. destruct Hs as (Ht & ?). rewrite Ht.
  destruct (trie_lookup E (trie_ s1) (c_str str)); by simpl.
Qed.

Lemma respects_prefix_match prefix : respects_rows (prefix_match (E:=E) prefix).
Proof.
  intros s1 s2 Hs. unfold prefix_match. destruct Hs as (Ht & ?). rewrite Ht.
  destruct (trie_predictive_search E (trie_ s1) (c_str prefix)); by simpl.
Qed.

Lemma respects_offsets_at id : respects_rows (offsets_at (E:=E) id).
Proof.
  intros s1 s2 Hs.
  destruct (offsets_at_run s1 id) as (t1 & -> & H1).
  destruct (offsets_at_run s2 id) as (t2 & -> & H2). simpl. split.
  - symmetry. apply Hs.
  - eapply same_rows_trans; [|exact H2].
    eapply same_rows_trans; [apply same_rows_sym, H1 | exact Hs].
Qed.

Lemma respects_In V : respects_rows (In (E:=E) V).
Proof.
  unfold In. intros s1 s2 Hs. rewrite !bind_run. unfold gets.
  assert (str_ids_ s2 = str_ids_ s1) as -> by apply Hs.
  refine (respects_foldM _ V _ _ s1 s2 Hs). intros b v.
  apply respects_bind; [apply respects_lookup|]. intros id. rewrite leb_0_l.
  apply respects_bind; [apply respects_offsets_at|]. intros offs.
  apply respects_foldM. intros b' o. apply respects_require.
Qed.

Lemma respects_NotIn V : respects_rows (NotIn (E:=E) V).
Proof.
  intros s1 s2 Hs. rewrite !NotIn_outcome.
  pose proof (respects_In V s1 s2 Hs) as HIn.
  destruct (In V s1), (In V s2); try done. simpl in *.
  destruct HIn as [-> ?]. done.
Qed.

Lemma respects_PrefixMatch prefix : respects_rows (PrefixMatch (E:=E) prefix).
Proof.
  unfold PrefixMatch. intros s1 s2 Hs. rewrite !bind_run. unfold gets.
  assert (str_ids_ s2 = str_ids_ s1) as -> by apply Hs.
  refine (respects_bind _ _ _ _ s1 s2 Hs);
    [apply respects_prefix_match|]. intros ids.
  apply respects_foldM. intros b id.
  apply respects_bind; [apply respects_offsets_at|]. intros offs.
  apply respects_foldM. intros b' o. apply respects_require.
Qed.

Lemma outcome_agree_observe {A} (o1 o2 : outcome E A) :
  outcome_agree o1 o2 → observe o1 = observe o2.
Proof. destruct o1, o2; simpl; try done; by intros [-> _]. Qed.

(** *** Queries whose ids are all in the map *)

Lemma mark_ids_present ids : ∀ b s,
  (∀ id, id ∈ ids → is_Some (str_ids_to_offsets_ s !! id)) →
  match
    foldM E (λ bitset str_id,
      bind E (offsets_at str_id) (λ offsets,
        foldM E (λ bitset offset, require E (bitset_set offset bitset))
          bitset offsets)) b ids s
  with
  | Done _ s' => s' = s
  | Thrown _ _ => False
  | Aborted => True
  end.
Proof.
  induction ids as [|id ids IH]; intros b s Hin; [done|].
  rewrite foldM_cons, bind_run. unfold offsets_at at 1.
  destruct (Hin id) as [offs ->]; [by left|].
  destruct (set_offsets_steady offs b s) as [(b1 & ->) | ->]; [|done].
  apply IH. intros id' Hid'. apply Hin. by right.
Qed.

(** *** Rows of an instance that [Build] produced *)

Lemma built_keys values q :
  N.of_nat (length values) < size_t_bound →
  q ∈ (c_str <$> values) ↔
  ∃ id, trie_lookup E (trie_build E (c_str <$> values)) q = Hit id.
Proof. intros Hlen. apply trie_build_hit. by rewrite length_fmap. Qed.

Lemma built_row values (i : nat) row :
  N.of_nat (length values) < size_t_bound →
  values !! i = Some row →
  ∃ idr,
    trie_lookup E (trie_build E (c_str <$> values)) (c_str row) = Hit idr ∧
    str_ids_ (built_from (E:=E) values ∅) !! i = Some idr ∧
    ∀ id, N.of_nat i ∈ offsets_of (built_from (E:=E) values ∅) id ↔ id = idr.
Proof.
  intros Hlen Hrow.
  destruct (proj1 (built_keys values (c_str row) Hlen)) as [idr Hidr].
  { apply list_elem_of_fmap. exists row. split; [done|].
    by eapply list_elem_of_lookup_2. }
  assert (str_ids_ (built_from (E:=E) values ∅) !! i = Some idr) as Hi.
  { simpl. rewrite list_lookup_fmap, Hrow. simpl. unfold lookup_id.
    by rewrite Hidr. }
  exists idr. split_and!; [done..|]. intros id.
  rewrite consistent_offset by done. rewrite Hi.
  split; [by intros [= ->] | by intros ->].
Qed.

Lemma built_present values v :
  N.of_nat (length values) < size_t_bound →
  c_str v ∈ (c_str <$> values) →
  ∃ idv,
    trie_lookup E (trie_build E (c_str <$> values)) (c_str v) = Hit idv ∧
    lookup_id (trie_build E (c_str <$> values)) v = idv ∧
    is_Some (str_ids_to_offsets_ (built_from (E:=E) values ∅) !! idv).
Proof.
  intros Hlen Hv.
  destruct (proj1 (built_keys values (c_str v) Hlen) Hv) as [idv Hidv].
  exists idv. split_and!; [done | by unfold lookup_id; rewrite Hidv|].
  apply list_elem_of_fmap in Hv as (row & Heq & Hrow).
  apply list_elem_of_lookup in Hrow as [i Hi].
  destruct (built_row values i row Hlen Hi) as (idr & Hidr & _ & Hoff).
  rewrite Heq in Hidv. assert (idr = idv) as -> by congruence.
  specialize (proj2 (Hoff idv) eq_refl) as Hin. unfold offsets_of in Hin.
  destruct (str_ids_to_offsets_ _ !! idv); [by eexists|].
  by apply elem_of_nil in Hin.
Qed.

Lemma offsets_of_fill ids (m : gmap N (list size_t)) s id :
  str_ids_to_offsets_ s = fill_offsets_loop 0 ids m →
  offsets_of s id = default [] (m !! id) ++ positions 0 ids id.
Proof.
  intros Hs. unfold offsets_of. rewrite Hs, fill_offsets_loop_lookup.
  destruct (positions 0 ids id); simpl; [by rewrite app_nil_r | done].
Qed.

End MoreFacts.

(** ** Query semantics and composition *)

Section Semantics.
Context {E : TrieEngine} (K : Knowhere).
Implicit Types (s X : StringIndexMarisa E) (b : TargetBitmap).
Implicit Types (ids : list size_t) (values V : list string).

Lemma built_hit_present values q id :
  N.of_nat (length values) < size_t_bound →
  trie_lookup E (trie_build E (c_str <$> values)) q = Hit id →
  is_Some (str_ids_to_offsets_ (built_from (E:=E) values ∅) !! id).
Proof.
  intros Hlen Hq.
  assert (q ∈ (c_str <$> values)) as Hin
    by (apply (built_keys (E:=E)); eauto).
  apply list_elem_of_fmap in Hin as (row & -> & Hrow).
  destruct (built_present (E:=E) values row Hlen) as (idv & Hidv & _ & Hsome).
  { apply list_elem_of_fmap. eauto. }
  by assert (id = idv) as -> by congruence.
Qed.

Lemma built_same_id values v row idr :
  N.of_nat (length values) < size_t_bound →
  c_str v ∈ (c_str <$> values) →
  trie_lookup E (trie_build E (c_str <$> values)) (c_str row) = Hit idr →
  lookup_id (trie_build E (c_str <$> values)) v = idr ↔ c_str v = c_str row.
Proof.
  intros Hlen Hv Hidr.
  destruct (built_present (E:=E) values v Hlen Hv) as (idv & Hidv & -> & _). split.
  - intros ->. by eapply trie_build_inj.
  - intros Heq. rewrite Heq in Hidv. congruence.
Qed.

(** X3.  On an instance that [Build] produced, when every query value
    occurs in the column, [In] reports exactly the rows whose value is one
    of the query values and [NotIn] exactly the other rows (values compared
    as the trie sees them, up to the first NUL). *)
Theorem In_NotIn_present_values values V :
  N.of_nat (length values) < size_t_bound →
  (∀ v, v ∈ V → c_str v ∈ (c_str <$> values)) →
  ∃ b s',
    In V (built_from (E:=E) values ∅) = Done b s' ∧
    NotIn V (built_from (E:=E) values ∅) = Done (bitset_flip b) s' ∧
    length b = length values ∧
    ∀ (i : nat) row, values !! i = Some row →
      (b !! i = Some true ↔ c_str row ∈ (c_str <$> V)) ∧
      (bitset_flip b !! i = Some true ↔ c_str row ∉ (c_str <$> V)).
Proof.
  intros Hlen HV. set (X := built_from values ∅).
  destruct (In_run V X) as (b & s' & HIn & _ & Hb & Hbits).
  { by apply consistent_in_range. }
  { intros q. apply trie_build_lookup. }
  assert (length b = length values) as Hb'
    by (rewrite Hb; simpl; by rewrite length_fmap).
  exists b, s'. split_and!; [done | by rewrite NotIn_outcome, HIn | done |].
  intros i row Hrow.
  destruct (built_row (E:=E) values i row Hlen Hrow) as (idr & Hidr & _ & Hoff).
  assert (b !! i = Some true ↔ c_str row ∈ (c_str <$> V)) as Hset.
  { rewrite Hbits. split.
    - intros (v & Hv & Hi). apply Hoff in Hi. apply list_elem_of_fmap.
      exists v. split; [|done]. symmetry.
      by apply (built_same_id values v row idr Hlen (HV v Hv) Hidr).
    - intros (v & Heq & Hv)%list_elem_of_fmap. exists v. split; [done|].
      apply Hoff.
      by apply (built_same_id values v row idr Hlen (HV v Hv) Hidr). }
  split; [done|]. rewrite bitset_flip_set, <-Hset.
  assert (i < length b)%nat as Hi
    by (rewrite Hb'; by eapply lookup_lt_Some).
  apply lookup_lt_is_Some in Hi as [[] Hx]; rewrite Hx; split; try done.
Qed.

(** X4.  On an instance that [Build] produced, [PrefixMatch] returns one
    bit per row and reports exactly the rows whose value starts with the
    prefix (both as the trie sees them, up to the first NUL). *)
Theorem PrefixMatch_after_Build values prefix :
  N.of_nat (length values) < size_t_bound →
  ∃ b s',
    PrefixMatch prefix (built_from (E:=E) values ∅) = Done b s' ∧
    length b = length values ∧
    ∀ (i : nat) row, values !! i = Some row →
      (b !! i = Some true ↔ String.prefix (c_str prefix) (c_str row) = true).
Proof.
  intros Hlen. set (X := built_from values ∅).
  destruct (trie_build_predictive E (c_str <$> values) (c_str prefix))
    as (ids & Hids & Hsearch).
  destruct (PrefixMatch_run prefix X ids) as (b & s' & HP & _ & Hb & Hbits).
  { by apply consistent_in_range. }
  { done. }
  exists b, s'. split_and!; [done | rewrite Hb; simpl; by rewrite length_fmap|].
  intros i row Hrow.
  destruct (built_row (E:=E) values i row Hlen Hrow) as (idr & Hidr & _ & Hoff).
  rewrite Hbits. split.
  - intros (id & Hid & Hi). apply Hoff in Hi as ->.
    apply Hsearch in Hid as (q & Hq & Hhit).
    by rewrite <-(trie_build_inj E _ _ _ _ Hhit Hidr).
  - intros Hp. exists idr. split; [|by apply Hoff].
    apply Hsearch. eauto.
Qed.

(** X5.  What is handed to the trie is [c_str()] of each string, so [Build],
    [In], [NotIn] and [PrefixMatch] behave on strings cut at their first
    NUL exactly as on the strings themselves, in every state. *)
Theorem operations_stop_at_NUL :
  (∀ values s, Build (E:=E) (c_str <$> values) s = Build values s) ∧
  (∀ V s, In (E:=E) (c_str <$> V) s = In V s) ∧
  (∀ V s, NotIn (E:=E) (c_str <$> V) s = NotIn V s) ∧
  (∀ prefix s, PrefixMatch (E:=E) (c_str prefix) s = PrefixMatch prefix s).
Proof.
  assert (HIn : ∀ V s, In (E:=E) (c_str <$> V) s = In V s).
  { intros V s. unfold In. rewrite !bind_run. unfold gets.
    apply foldM_fmap_ext. intros acc x s0.
    by rewrite !bind_run, lookup_c_str. }
  split_and!; [|done| |].
  - intros values s. destruct (built_ s) eqn:Hb.
    + by rewrite !Build_rejected.
    + by rewrite !Build_run, built_from_c_str.
  - intros V s. by rewrite !NotIn_outcome, HIn.
  - intros prefix s. unfold PrefixMatch. rewrite !bind_run. unfold gets.
    rewrite !bind_run. unfold prefix_match. by rewrite c_str_idemp.
Qed.

(** X6.  Whatever the state and the arguments, a query that returns or
    throws leaves the trie, [str_ids_], the built flag and the offsets
    recorded under every id as they were: the only thing it can add to
    [str_ids_to_offsets_] is an empty list under a new id. *)
Theorem queries_keep_rows (q : query) s :
  keeps_rows s (run_query q s).
Proof.
  destruct q; [apply keeper_In | apply keeper_NotIn | apply keeper_PrefixMatch].
Qed.

(** X7.  A query that has returned does not change what any later query
    answers: run in the state it left, every query ends as it would have
    in the state before. *)
Theorem query_answers_unaffected (q1 q2 : query) s a s' :
  run_query q1 s = Done a s' →
  observe (run_query q2 s') = observe (run_query q2 s).
Proof.
  intros Hq1. assert (keeps_rows s (run_query q1 s)) as Hkeep.
  { destruct q1; [apply keeper_In | apply keeper_NotIn
                 | apply keeper_PrefixMatch]. }
  rewrite Hq1 in Hkeep. simpl in Hkeep. symmetry.
  apply outcome_agree_observe.
  destruct q2; [by apply respects_In | by apply respects_NotIn
               | by apply respects_PrefixMatch].
Qed.

(** X8.  On an instance that [Build] produced, [PrefixMatch] with any
    prefix, and [In] and [NotIn] with values that all occur in the column,
    return and leave the instance exactly as it was. *)
Theorem queries_pure_on_built values :
  N.of_nat (length values) < size_t_bound →
  (∀ prefix, ∃ b,
     PrefixMatch prefix (built_from (E:=E) values ∅) =
     Done b (built_from values ∅)) ∧
  (∀ V, (∀ v, v ∈ V → c_str v ∈ (c_str <$> values)) →
     ∃ b, In V (built_from (E:=E) values ∅) = Done b (built_from values ∅) ∧
          NotIn V (built_from (E:=E) values ∅) =
          Done (bitset_flip b) (built_from values ∅)).
Proof.
  intros Hlen. set (X := built_from values ∅).
  assert (offsets_in_range X) as Hr by by apply consistent_in_range.
  split.
  - intros prefix.
    destruct (trie_build_predictive E (c_str <$> values) (c_str prefix))
      as (ids & Hids & Hsearch).
    unfold PrefixMatch. rewrite bind_run. unfold gets.
    rewrite bind_run. unfold prefix_match at 1. simpl trie_. rewrite Hids.
    pose proof (mark_ids_present ids
      (bitset_make (length (str_ids_ X))) X) as Hpure.
    destruct (mark_ids_run ids (bitset_make (length (str_ids_ X))) X)
      as (b & s' & Hrun & _); [done | apply bitset_make_length|].
    rewrite Hrun in Hpure |- *. exists b. f_equal. apply Hpure.
    intros id (q & _ & Hq)%Hsearch. by eapply built_hit_present.
  - intros V HV.
    assert (∃ b, In V X = Done b X) as [b HIn].
    { unfold In. rewrite bind_run. unfold gets.
      rewrite (In_loop_as_ids V _ X) by
        (apply same_rows_refl || intros q; apply trie_build_lookup).
      pose proof (mark_ids_present (lookup_id (trie_ X) <$> V)
        (bitset_make (length (str_ids_ X))) X) as Hpure.
      destruct (mark_ids_run (lookup_id (trie_ X) <$> V)
                  (bitset_make (length (str_ids_ X))) X)
        as (b & s' & Hrun & _); [done | apply bitset_make_length|].
      rewrite Hrun in Hpure |- *. exists b. f_equal. apply Hpure.
      intros id (v & -> & Hv)%list_elem_of_fmap.
      destruct (built_present (E:=E) values v Hlen (HV v Hv)) as (idv & _ & <- & ?).
      done. }
    exists b. split; [done|]. by rewrite NotIn_outcome, HIn.
Qed.

(** X9.  [Build] on a fresh instance completes with one id per row in
    [str_ids_], and two rows carry the same id exactly when their values
    are equal up to the first NUL. *)
Theorem ids_equal_iff_values_equal values :
  N.of_nat (length values) < size_t_bound →
  ∃ X, Build values (fresh E) = Done () X ∧
    length (str_ids_ X) = length values ∧
    ∀ (i j : nat) vi vj,
      values !! i = Some vi → values !! j = Some vj →
      (str_ids_ X !! i = str_ids_ X !! j ↔ c_str vi = c_str vj).
Proof.
  intros Hlen. exists (built_from values ∅).
  split_and!; [apply Build_fresh | simpl; by rewrite length_fmap|].
  intros i j vi vj Hi Hj.
  destruct (built_row (E:=E) values i vi Hlen Hi) as (idi & Hidi & -> & _).
  destruct (built_row (E:=E) values j vj Hlen Hj) as (idj & Hidj & -> & _).
  split.
  - intros [= ->]. by eapply trie_build_inj.
  - intros Heq. rewrite Heq in Hidi. congruence.
Qed.

(** X10.  Neither [Build] nor [Load] clears [str_ids_to_offsets_]: when
    they complete, the list under every id is the list that was there
    before, followed by the offsets at which the new [str_ids_] holds
    that id. *)
Theorem Build_Load_append_offsets :
  (∀ values s s', Build values s = Done () s' →
     ∀ id, offsets_of s' id =
           offsets_of s id ++ positions 0 (str_ids_ s') id) ∧
  (∀ set s s', Load K set s = Done () s' →
     ∀ id, offsets_of s' id =
           offsets_of s id ++ positions 0 (str_ids_ s') id).
Proof.
  split.
  - intros values s s' HB id. destruct (built_ s) eqn:Hb.
    + by rewrite Build_rejected in HB.
    + rewrite Build_run in HB by done. injection HB as <-.
      by apply offsets_of_fill.
  - intros set s s' (index & t & str_ids & _ & _ & _ & ->)%Load_Done_inv id.
    by apply offsets_of_fill.
Qed.

(** X11.  On an instance produced by [Build] or [Load], the answer of [In]
    and of [NotIn] depends only on which values are asked for, not on their
    order or on how often one is repeated. *)
Theorem In_set_of_values X V1 V2 :
  built_instance K X →
  (∀ v, v ∈ V1 ↔ v ∈ V2) →
  observe (In V1 X) = observe (In V2 X) ∧
  observe (NotIn V1 X) = observe (NotIn V2 X).
Proof.
  intros HX HV.
  pose proof (consistent_in_range X (built_instance_consistent K X HX)) as Hr.
  destruct (built_instance_ready K X HX) as [Hready _].
  destruct (In_run V1 X Hr Hready) as (b1 & s1 & H1 & _ & Hlen1 & Hbits1).
  destruct (In_run V2 X Hr Hready) as (b2 & s2 & H2 & _ & Hlen2 & Hbits2).
  assert (b1 = b2) as <-.
  { apply bitmap_ext; [congruence|]. intros i. rewrite Hbits1, Hbits2.
    split; intros (v & Hv & Hi); exists v; (split; [by apply HV | done]). }
  by rewrite !NotIn_outcome, H1, H2.
Qed.

(** X12.  On an instance produced by [Build] or [Load], the ids that
    [str_ids_to_offsets_] holds are exactly the ids that occur in
    [str_ids_], and none of its lists is empty. *)
Theorem built_offsets_nonempty X id :
  built_instance K X →
  (is_Some (str_ids_to_offsets_ X !! id) ↔ id ∈ str_ids_ X) ∧
  (∀ offsets, str_ids_to_offsets_ X !! id = Some offsets → offsets ≠ []).
Proof.
  intros HX. pose proof (built_instance_consistent K X HX) as Hc.
  rewrite Hc, fill_from_empty. split.
  - split.
    + intros Hsome.
      destruct (positions 0 (str_ids_ X) id) as [|o ps] eqn:Hps;
        [by destruct Hsome|].
      assert (o ∈ positions 0 (str_ids_ X) id) as Ho by (rewrite Hps; by left).
      apply elem_of_positions in Ho as (n & _ & Hn).
      by eapply list_elem_of_lookup_2.
    + intros [n Hn]%list_elem_of_lookup.
      assert (N.of_nat n ∈ positions 0 (str_ids_ X) id) as Ho.
      { apply elem_of_positions. exists n. split; [lia | done]. }
      destruct (positions 0 (str_ids_ X) id); [by apply elem_of_nil in Ho|].
      by eexists.
  - intros offsets. rewrite Hc, fill_from_empty.
    destruct (positions 0 (str_ids_ X) id); [done|].
    by intros [= <-].
Qed.

(** X13.  On an instance that [Build] produced, for a value that occurs in
    the column, every row that [In] over that one value reports is also
    reported by [PrefixMatch] with the value as prefix. *)
Theorem In_within_PrefixMatch values v :
  N.of_nat (length values) < size_t_bound →
  c_str v ∈ (c_str <$> values) →
  ∃ b_in s_in b_prefix s_prefix,
    In [v] (built_from (E:=E) values ∅) = Done b_in s_in ∧
    PrefixMatch v (built_from (E:=E) values ∅) = Done b_prefix s_prefix ∧
    length b_in = length b_prefix ∧
    ∀ i : nat, b_in !! i = Some true → b_prefix !! i = Some true.
Proof.
  intros Hlen Hv. set (X := built_from values ∅).
  assert (offsets_in_range X) as Hr by by apply consistent_in_range.
  destruct (In_run [v] X Hr) as (b1 & s1 & H1 & _ & Hlen1 & Hbits1).
  { intros q. apply trie_build_lookup. }
  destruct (trie_build_predictive E (c_str <$> values) (c_str v))
    as (ids & Hids & Hsearch).
  destruct (PrefixMatch_run v X ids Hr Hids)
    as (b2 & s2 & H2 & _ & Hlen2 & Hbits2).
  exists b1, s1, b2, s2. split_and!; [done | done | congruence |].
  intros i (v' & ->%list_elem_of_singleton & Hi)%Hbits1.
  apply Hbits2. exists (lookup_id (trie_ X) v). split; [|done].
  destruct (built_present (E:=E) values v Hlen Hv) as (idv & Hidv & Hid & _).
  simpl. rewrite Hid. apply Hsearch. exists (c_str v).
  split; [apply prefix_refl | done].
Qed.

End Semantics.

(** X14.  The offsets segment round trip: [Serialize] copies [str_ids_] out
    as eight bytes per element, and the [resize] and [memcpy] of [Load]
    turn those bytes back into the same elements, whatever the vector held
    before, as long as every id fits the integer width. *)
Theorem str_ids_segment_roundtrip (ids old : list size_t) :
  Forall (λ w, w < size_t_bound) ids →
  length (bytes_of_words ids) = (SIZE_WIDTH * length ids)%nat ∧
  memcpy_words
    (resize (length (bytes_of_words ids) / SIZE_WIDTH)%nat 0 old)
    (bytes_of_words ids) = Some ids.
Proof.
  intros Hids. split; [apply bytes_of_words_length|].
  rewrite memcpy_after_resize
    by (rewrite bytes_of_words_length, Nat.mul_comm; apply Nat.Div0.mod_mul).
  f_equal. rewrite bytes_of_words_length.
  rewrite Nat.mul_comm, Nat.div_mul by done.
  rewrite <-(app_nil_r (bytes_of_words ids)).
  by apply words_of_bytes_of_words.
Qed.

(** ** The sample instances, run *)

(** C4, at the input that breaks it.  [Load] of [sample_blob] into a fresh
    instance completes and leaves the built flag false, although the
    instance answers queries.  [Build] over ["c"] on that instance is
    therefore not rejected: it replaces the trie and the rows and appends
    to the offsets already there.  Afterwards the list under id 0 names
    offset 1 of a one-row index, and [In] over ["c"], which returned a
    bitmap before, no longer returns one. *)
Theorem Build_after_Load_goes_through :
  Load plain_knowhere sample_blob (fresh list_trie) = Done () sample_loaded ∧
  built_ sample_loaded = false ∧
  observe (In ["c"] sample_loaded) = Returned [false; false; false; true] ∧
  ∃ Z, Build ["c"] sample_loaded = Done () Z ∧
    built_ Z = true ∧
    trie_ Z = Some ["c"] ∧
    str_ids_ Z = [0] ∧
    str_ids_to_offsets_ Z !! 0 = Some [1; 0] ∧
    observe (In ["c"] Z) = Crashed.
Proof.
  split_and!; [reflexivity..|].
  exists (built_from ["c"] (str_ids_to_offsets_ sample_loaded)).
  split_and!; reflexivity.
Qed.

(** C6, at the input that breaks it.  ["zz"] is not a key of the trie of
    [sample_built]; the lookup misses, the agent's key id 0 is taken for
    the id of the value, and [In] reports row 1, whose value is ["b"]. *)
Theorem In_absent_value_reports_rows :
  Build sample_values (fresh list_trie) = Done () sample_built ∧
  trie_lookup list_trie (trie_ sample_built) "zz" = Miss ∧
  sample_values !! 1%nat = Some "b" ∧
  observe (In ["zz"] sample_built) = Returned [false; true; false; false].
Proof. split_and!; reflexivity. Qed.

(** Against C5: a blob set without the offsets segment makes [Load] fail,
    but only after the trie of the instance has been replaced.  The
    instance is then neither as it was nor loaded: a query that the fresh
    instance refused is answered, over no rows. *)
Lemma Load_without_offsets_is_partial :
  trie_only_blob !! "marisa_str_ids" = None ∧
  Load plain_knowhere trie_only_blob (fresh list_trie) =
    Thrown (segment_missing "marisa_str_ids")
      (mkIndex (E:=list_trie) (Some ["a"]) [] ∅ false) ∧
  mkIndex (E:=list_trie) (Some ["a"]) [] ∅ false ≠ fresh list_trie ∧
  observe (PrefixMatch "a" (fresh list_trie)) = Raised marisa_state_error ∧
  observe (PrefixMatch "a" (mkIndex (E:=list_trie) (Some ["a"]) [] ∅ false)) =
    Returned [].
Proof.
  split_and!;
    [reflexivity | reflexivity | by intros [=] | reflexivity | reflexivity].
Qed.

(** [Load] of [sample_blob], whose offsets segment is a whole number of
    integers. *)
Lemma Load_outcomes_sample :
  (length (bytes_of_words (str_ids_ sample_built)) mod SIZE_WIDTH = 0)%nat ∧
  Load plain_knowhere sample_blob (fresh list_trie) = Done () sample_loaded.
Proof.
  split; [reflexivity|].
  exact (Load_outcomes plain_knowhere sample_blob (fresh list_trie) eq_refl).
Defined.

(** Against C8: on a fresh instance [In] over no values returns, and an
    instance that [Load] filled still has the built flag false while its
    queries return. *)
Lemma In_returns_while_unbuilt :
  built_ (fresh list_trie) = false ∧
  In [] (fresh list_trie) = Done [] (fresh list_trie) ∧
  built_ sample_loaded = false ∧
  observe (In ["a"] sample_loaded) = Returned [true; false; true; false].
Proof. split_and!; reflexivity. Qed.


(** The round trip on [sample_built]. *)
Lemma Load_Serialize_roundtrip_sample :
  built_instance plain_knowhere sample_built ∧
  ∃ blob Y,
    Serialize plain_knowhere () sample_built = Done blob sample_built ∧
    Load plain_knowhere blob (fresh list_trie) = Done () Y ∧
    (∀ V, ∃ b, observe (In V sample_built) = Returned b ∧
               observe (In V Y) = Returned b) ∧
    (∀ V, ∃ b, observe (NotIn V sample_built) = Returned b ∧
               observe (NotIn V Y) = Returned b) ∧
    (∀ prefix, ∃ b, observe (PrefixMatch prefix sample_built) = Returned b ∧
                    observe (PrefixMatch prefix Y) = Returned b).
Proof.
  assert (built_instance plain_knowhere sample_built) as Hbuilt.
  { apply (built_by_Build plain_knowhere sample_values). reflexivity. }
  split; [exact Hbuilt|].
  exact (Load_Serialize_roundtrip plain_knowhere sample_built () Hbuilt).
Defined.

(** The partition invariant on the instance loaded from [sample_blob]. *)
Lemma offset_partition_sample :
  Load plain_knowhere sample_blob (fresh list_trie) = Done () sample_loaded ∧
  offset_partition sample_loaded.
Proof.
  assert (Load plain_knowhere sample_blob (fresh list_trie) =
          Done () sample_loaded) as Hload by reflexivity.
  split; [exact Hload|].
  exact (proj2 (offset_partition_after_Build_or_Load plain_knowhere)
           sample_blob sample_loaded Hload).
Defined.

(** [NotIn] against [In] on [sample_built]. *)
Lemma NotIn_is_In_negated_sample :
  built_instance plain_knowhere sample_built ∧
  ∃ b s', In ["a"] sample_built = Done b s' ∧
    NotIn ["a"] sample_built = Done (bitset_flip b) s' ∧
    length b = length (str_ids_ sample_built).
Proof.
  assert (built_instance plain_knowhere sample_built) as Hbuilt.
  { apply (built_by_Build plain_knowhere sample_values). reflexivity. }
  split; [exact Hbuilt|].
  exact (proj2 (NotIn_is_In_negated plain_knowhere) sample_built ["a"] Hbuilt).
Defined.

(** ** The further properties on the sample instances *)

Lemma sample_values_fit : N.of_nat (length sample_values) < size_t_bound.
Proof. reflexivity. Qed.

Lemma sample_values_hold_all (V : list string) :
  bool_decide (Forall (λ v, c_str v ∈ (c_str <$> sample_values)) V) = true →
  ∀ v, v ∈ V → c_str v ∈ (c_str <$> sample_values).
Proof. intros HV%bool_decide_eq_true. by apply list.Forall_forall. Qed.

Lemma sample_built_is_built : built_instance plain_knowhere sample_built.
Proof. apply (built_by_Build plain_knowhere sample_values). reflexivity. Qed.

(** [In] over a present and an absent value on [sample_built]. *)
Lemma In_after_Build_sample :
  N.of_nat (length sample_values) < size_t_bound ∧
  ∃ b s', In ["a"; "zz"] (built_from (E:=list_trie) sample_values ∅) =
          Done b s' ∧
    length b = length sample_values ∧
    ∀ (i : nat) row, sample_values !! i = Some row →
      (b !! i = Some true ↔
       ∃ v, v ∈ ["a"; "zz"] ∧
         (c_str v = c_str row ∨
          ((c_str v ∉ (c_str <$> sample_values)) ∧
           lookup_id (trie_build list_trie (c_str <$> sample_values)) row =
           fresh_key_id list_trie))).
Proof.
  split; [reflexivity|].
  apply (In_after_Build (E:=list_trie) sample_values ["a"; "zz"]).
  reflexivity.
Defined.

(** [In] and [NotIn] over present values on [sample_built]. *)
Lemma In_NotIn_present_values_sample :
  N.of_nat (length sample_values) < size_t_bound ∧
  (∀ v, v ∈ ["a"; "c"] → c_str v ∈ (c_str <$> sample_values)) ∧
  ∃ b s',
    In ["a"; "c"] (built_from (E:=list_trie) sample_values ∅) = Done b s' ∧
    NotIn ["a"; "c"] (built_from (E:=list_trie) sample_values ∅) =
      Done (bitset_flip b) s' ∧
    length b = length sample_values ∧
    ∀ (i : nat) row, sample_values !! i = Some row →
      (b !! i = Some true ↔ c_str row ∈ (c_str <$> ["a"; "c"])) ∧
      (bitset_flip b !! i = Some true ↔ c_str row ∉ (c_str <$> ["a"; "c"])).
Proof.
  assert (∀ v, v ∈ ["a"; "c"] → c_str v ∈ (c_str <$> sample_values)) as HV
    by (apply sample_values_hold_all; reflexivity).
  split; [reflexivity|]. split; [exact HV|].
  apply (In_NotIn_present_values (E:=list_trie) sample_values ["a"; "c"]);
    [reflexivity | exact HV].
Defined.

(** [PrefixMatch] on [sample_built]. *)
Lemma PrefixMatch_after_Build_sample :
  N.of_nat (length sample_values) < size_t_bound ∧
  ∃ b s',
    PrefixMatch "a" (built_from (E:=list_trie) sample_values ∅) = Done b s' ∧
    length b = length sample_values ∧
    ∀ (i : nat) row, sample_values !! i = Some row →
      (b !! i = Some true ↔ String.prefix (c_str "a") (c_str row) = true).
Proof.
  split; [reflexivity|].
  apply (PrefixMatch_after_Build (E:=list_trie) sample_values "a").
  reflexivity.
Defined.

(** [In] on an index built over no values stores an empty list; a
    [PrefixMatch] run afterwards answers as it would have before. *)
Lemma query_answers_unaffected_sample :
  run_query (QIn ["a"]) (built_from (E:=list_trie) [] ∅) =
    Done [] (with_offsets {[ 0 := [] ]} (built_from [] ∅)) ∧
  observe (run_query (QPrefixMatch "")
             (with_offsets {[ 0 := [] ]} (built_from (E:=list_trie) [] ∅))) =
  observe (run_query (QPrefixMatch "") (built_from (E:=list_trie) [] ∅)).
Proof.
  assert (run_query (QIn ["a"]) (built_from (E:=list_trie) [] ∅) =
          Done [] (with_offsets {[ 0 := [] ]} (built_from [] ∅))) as Hq
    by reflexivity.
  split; [exact Hq|].
  exact (query_answers_unaffected (QIn ["a"]) (QPrefixMatch "")
           (built_from [] ∅) _ _ Hq).
Defined.

(** Queries that leave [sample_built] as it is. *)
Lemma queries_pure_on_built_sample :
  N.of_nat (length sample_values) < size_t_bound ∧
  (∀ prefix, ∃ b,
     PrefixMatch prefix (built_from (E:=list_trie) sample_values ∅) =
     Done b (built_from sample_values ∅)) ∧
  (∀ V, (∀ v, v ∈ V → c_str v ∈ (c_str <$> sample_values)) →
     ∃ b, In V (built_from (E:=list_trie) sample_values ∅) =
          Done b (built_from sample_values ∅) ∧
          NotIn V (built_from (E:=list_trie) sample_values ∅) =
          Done (bitset_flip b) (built_from sample_values ∅)).
Proof.
  split; [reflexivity|].
  apply (queries_pure_on_built (E:=list_trie) sample_values). reflexivity.
Defined.

(** [Build] over [sample_values], whose rows 0 and 2 hold the same value. *)
Lemma ids_equal_iff_values_equal_sample :
  N.of_nat (length sample_values) < size_t_bound ∧
  ∃ X, Build sample_values (fresh list_trie) = Done () X ∧
    length (str_ids_ X) = length sample_values ∧
    ∀ (i j : nat) vi vj,
      sample_values !! i = Some vi → sample_values !! j = Some vj →
      (str_ids_ X !! i = str_ids_ X !! j ↔ c_str vi = c_str vj).
Proof.
  split; [reflexivity|].
  apply (ids_equal_iff_values_equal (E:=list_trie) sample_values).
  reflexivity.
Defined.

(** [Load] of [sample_blob] into [sample_loaded], which holds it already. *)
Lemma Build_Load_append_offsets_sample :
  Load plain_knowhere sample_blob sample_loaded =
    Done () (with_offsets
      (fill_offsets_loop 0 (str_ids_ sample_loaded)
         (str_ids_to_offsets_ sample_loaded)) sample_loaded) ∧
  ∀ id,
    offsets_of (with_offsets
      (fill_offsets_loop 0 (str_ids_ sample_loaded)
         (str_ids_to_offsets_ sample_loaded)) sample_loaded) id =
    offsets_of sample_loaded id ++ positions 0 (str_ids_ sample_loaded) id.
Proof.
  assert (Load plain_knowhere sample_blob sample_loaded =
    Done () (with_offsets
      (fill_offsets_loop 0 (str_ids_ sample_loaded)
         (str_ids_to_offsets_ sample_loaded)) sample_loaded)) as Hload
    by reflexivity.
  split; [exact Hload|].
  exact (proj2 (Build_Load_append_offsets plain_knowhere)
           sample_blob sample_loaded _ Hload).
Defined.

(** The same values asked for in another order, one of them twice. *)
Lemma In_set_of_values_sample :
  built_instance plain_knowhere sample_built ∧
  (∀ v : string, v ∈ ["a"; "c"] ↔ v ∈ ["c"; "a"; "c"]) ∧
  observe (In ["a"; "c"] sample_built) =
    observe (In ["c"; "a"; "c"] sample_built) ∧
  observe (NotIn ["a"; "c"] sample_built) =
    observe (NotIn ["c"; "a"; "c"] sample_built).
Proof.
  assert (∀ v : string, v ∈ ["a"; "c"] ↔ v ∈ ["c"; "a"; "c"]) as HV
    by (intros v; rewrite !elem_of_cons, elem_of_nil; tauto).
  split; [exact sample_built_is_built|]. split; [exact HV|].
  exact (In_set_of_values plain_knowhere sample_built _ _
           sample_built_is_built HV).
Defined.

(** The ids of [sample_built]. *)
Lemma built_offsets_nonempty_sample :
  built_instance plain_knowhere sample_built ∧
  (is_Some (str_ids_to_offsets_ sample_built !! 1) ↔
   1 ∈ str_ids_ sample_built) ∧
  (∀ offsets, str_ids_to_offsets_ sample_built !! 1 = Some offsets →
     offsets ≠ []).
Proof.
  split; [exact sample_built_is_built|].
  exact (built_offsets_nonempty plain_knowhere sample_built 1
           sample_built_is_built).
Defined.

(** [In] over ["a"] against [PrefixMatch] of ["a"] on [sample_built]. *)
Lemma In_within_PrefixMatch_sample :
  N.of_nat (length sample_values) < size_t_bound ∧
  c_str "a" ∈ (c_str <$> sample_values) ∧
  ∃ b_in s_in b_prefix s_prefix,
    In ["a"] (built_from (E:=list_trie) sample_values ∅) = Done b_in s_in ∧
    PrefixMatch "a" (built_from (E:=list_trie) sample_values ∅) =
      Done b_prefix s_prefix ∧
    length b_in = length b_prefix ∧
    ∀ i : nat, b_in !! i = Some true → b_prefix !! i = Some true.
Proof.
  assert (c_str "a" ∈ (c_str <$> sample_values)) as Hv
    by (apply (sample_values_hold_all ["a"] eq_refl "a"), list_elem_of_singleton;
        reflexivity).
  split; [reflexivity|]. split; [exact Hv|].
  apply (In_within_PrefixMatch (E:=list_trie) sample_values "a");
    [reflexivity | exact Hv].
Defined.

(** The ids of [sample_built] through the offsets segment, into a vector
    that held something else. *)
Lemma str_ids_segment_roundtrip_sample :
  Forall (λ w, w < size_t_bound) (str_ids_ sample_built) ∧
  length (bytes_of_words (str_ids_ sample_built)) = (SIZE_WIDTH * 4)%nat ∧
  memcpy_words
    (resize (length (bytes_of_words (str_ids_ sample_built)) / SIZE_WIDTH)%nat
       0 [7; 7])
    (bytes_of_words (str_ids_ sample_built)) = Some (str_ids_ sample_built).
Proof.
  assert (Forall (λ w, w < size_t_bound) (str_ids_ sample_built)) as Hids
    by (repeat constructor).
  split; [exact Hids|].
  exact (str_ids_segment_roundtrip (str_ids_ sample_built) [7; 7] Hids).
Defined.
